(** * hello.py: greeting formatters and the stateful [Greeter]

    A shallow embedding of [src/hello.py] and the properties its
    specification states about it.

    Python values are dynamically typed, so the functions take a [value] and
    perform the [isinstance] tests of the source.  A Python [str] is a
    sequence of Unicode code points, modelled as [list N].  Exceptions are
    results of the functions ([Raise]); the [Greeter] object is a record that
    the methods take and return.

    The calls to [logger] write to the logging stream only and change
    neither a returned value nor the state of a [Greeter]; what is kept of
    them is the evaluation of their argument where it can raise, which is
    [repr(name)] in the two warnings of [greet_multiple_safe] (the other
    arguments format a [str] or a [len]). The local counter [skipped_count]
    of [greet_multiple_safe], which feeds such a call, is kept. *)

From Stdlib Require Import NArith ZArith Lia String Ascii List.
From stdpp Require Import base list gmap strings.

Local Open Scope string_scope.
Local Open Scope list_scope.
Local Open Scope nat_scope.

(** ** Python values, strings and exceptions *)

(** A Python [str]: the list of its code points. *)
Abbreviation str := (list N).

(** The [str] of an ASCII literal of the source. *)
Definition lit (s : string) : str := map N_of_ascii (list_ascii_of_string s).

#[warnings="-register-all"]
Inductive value : Type :=
| VNone
| VBool (b : bool)
| VInt (z : Z)
| VStr (s : str)
| VList (l : list value)
| VTuple (l : list value).

(** The exceptions the module raises, with their messages. *)
Inductive exn : Type :=
| TypeError (msg : string)
| ValueError (msg : string)
| IndexError (msg : string)
| RecursionError (msg : string).

Inductive result (A : Type) : Type :=
| Ok (a : A)
| Raise (e : exn).
Arguments Ok {A} a.
Arguments Raise {A} e.

Definition bind {A B} (r : result A) (k : A -> result B) : result B :=
  match r with
  | Ok a => k a
  | Raise e => Raise e
  end.

Notation "'let*' x ':=' e 'in' k" := (bind e (fun x => k))
  (at level 10, x name, e at level 100, k at level 200).

(** A list comprehension whose body may raise: left to right, the first
    exception ends it. *)
Fixpoint mapM {A B} (f : A -> result B) (l : list A) : result (list B) :=
  match l with
  | [] => Ok []
  | a :: l' =>
      let* b := f a in
      let* bs := mapM f l' in
      Ok (b :: bs)
  end.

(** [l[i]] for [i >= 0]. *)
Definition getitem {A} (l : list A) (i : nat) : result A :=
  match l !! i with
  | Some a => Ok a
  | None => Raise (IndexError "list index out of range")
  end.

(** [isinstance(v, str)] and [isinstance(v, list)]. *)
Definition isinstance_str (v : value) : bool :=
  match v with VStr _ => true | _ => false end.

Definition isinstance_list (v : value) : bool :=
  match v with VList _ => true | _ => false end.

(** A parameter with a default value: [None] is the call that leaves it out. *)
Definition arg_or {A} (dflt : A) (a : option A) : A :=
  match a with Some v => v | None => dflt end.

(** ** [repr] of a value, as far as it can raise *)

(** The limits of the interpreter that [repr] can meet:
    [sys.get_int_max_str_digits()], where 0 is no limit, with the message
    of the [ValueError] of a conversion over it (the text differs between
    versions), and the number of containers, one inside the other, that
    [repr] can enter before it meets the recursion limit. *)
Record Runtime : Type := {
  int_max_str_digits : N;
  int_max_str_error : string;
  repr_depth : nat
}.

(** The interpreter's defaults: 4300 digits; 1000 is the recursion limit,
    which the depth left for [repr] does not exceed. *)
Definition default_runtime : Runtime :=
  {| int_max_str_digits := 4300;
     int_max_str_error :=
       "Exceeds the limit (4300 digits) for integer string conversion; use sys.set_int_max_str_digits() to increase the limit";
     repr_depth := 1000 |}.

(** The decimal form of [z] has more than [limit] digits, and there is a
    limit. *)
Definition over_digits (limit : N) (z : Z) : bool :=
  (0 <? limit)%N && (10 ^ Z.of_N limit <=? Z.abs z)%Z.

(** The first exception among the elements, from the left. *)
Fixpoint first_error {A} (f : A -> option exn) (l : list A) : option exn :=
  match l with
  | [] => None
  | a :: l' =>
      match f a with
      | Some e => Some e
      | None => first_error f l'
      end
  end.

(** The exception [repr(v)] raises, if it raises, with [depth] containers
    left to enter: the conversion of an [int] over the digit limit, or the
    recursion limit under nested lists and tuples. *)
Fixpoint repr_error (rt : Runtime) (depth : nat) (v : value) {struct depth}
    : option exn :=
  match v with
  | VNone | VBool _ | VStr _ => None
  | VInt z =>
      if over_digits (int_max_str_digits rt) z
      then Some (ValueError (int_max_str_error rt))
      else None
  | VList l | VTuple l =>
      match depth with
      | O =>
          Some (RecursionError
                  "maximum recursion depth exceeded while getting the repr of an object")
      | S depth' => first_error (repr_error rt depth') l
      end
  end.

(** [repr(v)], as far as it raises. *)
Definition repr (rt : Runtime) (v : value) : option exn :=
  repr_error rt (repr_depth rt) v.

(** ** The methods of [str] that the module calls *)

(** The case properties of the code points above ASCII, which [str.title]
    reads from the Unicode character database. [ud_lower] sees the whole
    string and the position, as the lower-casing of a capital sigma
    depends on its neighbours. *)
Record UnicodeData : Type := {
  ud_cased : N -> bool;
  ud_title : N -> str;
  ud_lower : str -> nat -> N -> str
}.

(** A database with no cased code point above ASCII. *)
Definition ascii_only : UnicodeData :=
  {| ud_cased := fun _ => false;
     ud_title := fun c => [c];
     ud_lower := fun _ _ c => [c] |}.

Module Str.

(** [Py_UNICODE_ISSPACE]: the code points [str.isspace] accepts and
    [str.strip] removes. *)
Definition isspace (c : N) : bool :=
  ((9 <=? c) && (c <=? 13) || (28 <=? c) && (c <=? 32)
   || (c =? 0x85) || (c =? 0xA0) || (c =? 0x1680)
   || (0x2000 <=? c) && (c <=? 0x200A)
   || (c =? 0x2028) || (c =? 0x2029) || (c =? 0x202F)
   || (c =? 0x205F) || (c =? 0x3000))%N.

Fixpoint lstrip_by (p : N -> bool) (s : str) : str :=
  match s with
  | c :: s' => if p c then lstrip_by p s' else s
  | [] => []
  end.

Definition rstrip_by (p : N -> bool) (s : str) : str :=
  rev (lstrip_by p (rev s)).

(** [s.strip()] *)
Definition strip (s : str) : str := rstrip_by isspace (lstrip_by isspace s).

(** [s.rstrip(chars)] *)
Definition rstrip (s chars : str) : str :=
  rstrip_by (fun c => bool_decide (c ∈ chars)) s.

(** The truth value of a [str]. *)
Definition truthy (s : str) : bool :=
  match s with [] => false | _ => true end.

Fixpoint starts_with (p s : str) : bool :=
  match p, s with
  | [], _ => true
  | a :: p', b :: s' => (a =? b)%N && starts_with p' s'
  | _ :: _, [] => false
  end.

Definition push_head (c : N) (fields : list str) : list str :=
  match fields with
  | f :: r => (c :: f) :: r
  | [] => [[c]]
  end.

(** The fields of [s] between the occurrences of [sep], found from the
    left; [skip] code points of a separator just found are still to be
    passed over. *)
Fixpoint split_scan (sep : str) (skip : nat) (s : str) : list str :=
  match s with
  | [] => [[]]
  | c :: s' =>
      match skip with
      | S k => split_scan sep k s'
      | O =>
          if starts_with sep s
          then [] :: split_scan sep (length sep - 1) s'
          else push_head c (split_scan sep 0 s')
      end
  end.

(** [s.split(sep)] *)
Definition split (s sep : str) : result (list str) :=
  match sep with
  | [] => Raise (ValueError "empty separator")
  | _ :: _ => Ok (split_scan sep 0 s)
  end.

Definition ascii_upper (c : N) : bool := ((65 <=? c) && (c <=? 90))%N.
Definition ascii_lower (c : N) : bool := ((97 <=? c) && (c <=? 122))%N.

Section Title.
Variable ud : UnicodeData.

Definition is_cased (c : N) : bool :=
  if (c <? 128)%N then ascii_upper c || ascii_lower c else ud_cased ud c.

Definition to_title_full (c : N) : str :=
  if (c <? 128)%N then [if ascii_lower c then (c - 32)%N else c]
  else ud_title ud c.

Definition lower_ucs4 (s : str) (i : nat) (c : N) : str :=
  if (c <? 128)%N then [if ascii_upper c then (c + 32)%N else c]
  else ud_lower ud s i c.

(** The loop of [str.title]: a code point is title-cased when the one
    before it is not cased, and lower-cased otherwise. *)
Fixpoint do_title (s : str) (i : nat) (previous_is_cased : bool)
    (rest : str) : str :=
  match rest with
  | [] => []
  | c :: rest' =>
      (if previous_is_cased then lower_ucs4 s i c else to_title_full c)
        ++ do_title s (S i) (is_cased c) rest'
  end.

(** [s.title()] *)
Definition title (s : str) : str := do_title s 0 false s.
End Title.

End Str.

(** ** The module's functions *)

(** [greet(name, greeting="Hello")] *)
Definition greet (name : value) (greeting : option value) : result str :=
  let greeting := arg_or (VStr (lit "Hello")) greeting in
  match name with
  | VStr n =>
      match greeting with
      | VStr g =>
          if negb (Str.truthy n) || negb (Str.truthy (Str.strip n))
          then Raise (ValueError "Name cannot be empty or whitespace only")
          else Ok (g ++ lit ", " ++ Str.strip n ++ lit "!")
      | _ => Raise (TypeError "Greeting must be a string")
      end
  | _ => Raise (TypeError "Name must be a string")
  end.

(** [greet_multiple(names, greeting="Hello")]: the loop appends to the
    local list [greetings]; an exception of [greet] leaves the function. *)
Fixpoint greet_multiple_loop (greeting : value) (greetings : list str)
    (names : list value) : result (list str) :=
  match names with
  | [] => Ok greetings
  | name :: names' =>
      let* message := greet name (Some greeting) in
      greet_multiple_loop greeting (greetings ++ [message]) names'
  end.

Definition greet_multiple (names : value) (greeting : option value)
    : result (list str) :=
  let greeting := arg_or (VStr (lit "Hello")) greeting in
  match names with
  | VList names =>
      if negb (isinstance_str greeting)
      then Raise (TypeError "Greeting must be a string")
      else greet_multiple_loop greeting [] names
  | _ => Raise (TypeError "Names must be a list")
  end.

(** [except (ValueError, TypeError)] catches [e]. *)
Definition caught (e : exn) : bool :=
  match e with
  | ValueError _ | TypeError _ => true
  | _ => false
  end.

(** [isinstance(name, str) and name.strip()] as a condition. *)
Definition str_and_strips (name : value) : bool :=
  match name with
  | VStr n => Str.truthy (Str.strip n)
  | _ => false
  end.

(** [logger.warning(f"Skipping invalid name: {repr(name)}")]: the argument
    is evaluated before the call, and [repr] may raise. *)
Definition warn_skipping (rt : Runtime) (name : value) : option exn :=
  repr rt name.

(** The body of [try] in the loop of [greet_multiple_safe]: the local
    variables [greetings] and [skipped_count] when it ends, and the
    exception it ended with, if any. *)
Definition safe_try (rt : Runtime) (greeting name : value)
    (greetings : list str) (skipped_count : nat)
    : (list str * nat) * option exn :=
  if str_and_strips name
  then
    match greet name (Some greeting) with
    | Ok message => ((greetings ++ [message], skipped_count), None)
    | Raise e => ((greetings, skipped_count), Some e)
    end
  else
    let skipped_count := skipped_count + 1 in
    ((greetings, skipped_count), warn_skipping rt name).

(** The [except] clause, entered with the local variables the body left. *)
Definition safe_except (rt : Runtime) (name : value) (greetings : list str)
    (skipped_count : nat) : (list str * nat) * option exn :=
  let skipped_count := skipped_count + 1 in
  ((greetings, skipped_count), warn_skipping rt name).

(** One turn of the loop: [try ... except (ValueError, TypeError) ...]. *)
Definition safe_turn (rt : Runtime) (greeting name : value)
    (greetings : list str) (skipped_count : nat)
    : (list str * nat) * option exn :=
  match safe_try rt greeting name greetings skipped_count with
  | ((greetings', skipped_count'), Some e) =>
      if caught e
      then safe_except rt name greetings' skipped_count'
      else ((greetings', skipped_count'), Some e)
  | (locals, None) => (locals, None)
  end.

(** [greet_multiple_safe(names, greeting="Hello")]: the loop carries the
    local variables [greetings] and [skipped_count]; an exception that
    leaves a turn leaves the function. *)
Fixpoint greet_multiple_safe_loop (rt : Runtime) (greeting : value)
    (greetings : list str) (skipped_count : nat) (names : list value)
    : result (list str * nat) :=
  match names with
  | [] => Ok (greetings, skipped_count)
  | name :: names' =>
      match safe_turn rt greeting name greetings skipped_count with
      | ((greetings', skipped_count'), None) =>
          greet_multiple_safe_loop rt greeting greetings' skipped_count' names'
      | (_, Some e) => Raise e
      end
  end.

Definition greet_multiple_safe_locals (rt : Runtime) (names : value)
    (greeting : option value) : result (list str * nat) :=
  let greeting := arg_or (VStr (lit "Hello")) greeting in
  match names with
  | VList names =>
      if negb (isinstance_str greeting)
      then Raise (TypeError "Greeting must be a string")
      else greet_multiple_safe_loop rt greeting [] 0 names
  | _ => Raise (TypeError "Names must be a list")
  end.

Definition greet_multiple_safe (rt : Runtime) (names : value)
    (greeting : option value) : result (list str) :=
  let* locals := greet_multiple_safe_locals rt names greeting in
  Ok (fst locals).

(** ** [collections.Counter] *)

Module Counter.

(** A [Counter] is a [dict]: its items are kept in the order in which
    the keys were first inserted. *)
Definition t : Type := list (str * nat).

(** [c[k] = c.get(k, 0) + 1] *)
Fixpoint incr (k : str) (c : t) : t :=
  match c with
  | [] => [(k, 1)]
  | (k', n) :: c' =>
      if decide (k = k') then (k', S n) :: c' else (k', n) :: incr k c'
  end.

(** [Counter(iterable)] *)
Definition of_list (l : list str) : t :=
  fold_left (fun c k => incr k c) l [].

(** [max(items, key=itemgetter(1))] from a first item on: a later item
    replaces the best one only when its count is greater. *)
Fixpoint max_item (best : str * nat) (items : t) : str * nat :=
  match items with
  | [] => best
  | item :: items' =>
      max_item (if (snd best <? snd item)%nat then item else best) items'
  end.

(** [c.most_common(1)], which is [heapq.nlargest(1, c.items(), key)],
    that is [max] of the items, or the empty list. *)
Definition most_common_1 (c : t) : list (str * nat) :=
  match c with
  | [] => []
  | item :: items => [max_item item items]
  end.

End Counter.

(** ** The class [Greeter] *)

(** The dictionary [get_statistics] returns; [None] of
    [most_common_greeting] is Python's [None]. *)
Record statistics : Type := {
  total_greetings : nat;
  unique_names : nat;
  most_common_greeting : option str
}.

Module Greeter.

Record t : Type := {
  default_greeting : str;
  case_sensitive : bool;
  greeting_history : list str
}.

(** [Greeter(default_greeting="Hello", case_sensitive=True)] *)
Definition __init__ (default_greeting : option value)
    (case_sensitive : option bool) : result t :=
  let default_greeting := arg_or (VStr (lit "Hello")) default_greeting in
  let case_sensitive := arg_or true case_sensitive in
  match default_greeting with
  | VStr d =>
      if negb (Str.truthy (Str.strip d))
      then Raise (ValueError "Default greeting cannot be empty")
      else Ok {| default_greeting := Str.strip d;
                 case_sensitive := case_sensitive;
                 greeting_history := [] |}
  | _ => Raise (TypeError "Default greeting must be a string")
  end.

(** [self.greeting_history.append(message)] *)
Definition append_history (self : t) (message : str) : t :=
  {| default_greeting := default_greeting self;
     case_sensitive := case_sensitive self;
     greeting_history := greeting_history self ++ [message] |}.

(** [self.greet(name, greeting=None)]: the result and the object after
    the call. The [greet] called inside is the module's function. *)
Definition greet (ud : UnicodeData) (self : t) (name : value)
    (greeting : option value) : result str * t :=
  let greeting := arg_or VNone greeting in
  let greeting :=
    match greeting with
    | VNone => VStr (default_greeting self)
    | _ => greeting
    end in
  let name :=
    match name with
    | VStr n => if negb (case_sensitive self) then VStr (Str.title ud n) else name
    | _ => name
    end in
  match greet name (Some greeting) with
  | Ok message => (Ok message, append_history self message)
  | Raise e => (Raise e, self)
  end.

(** [msg.split(',')[0]] *)
Definition greeting_word (msg : str) : result str :=
  let* fields := Str.split msg (lit ",") in
  getitem fields 0.

(** [msg.split(', ')[1].rstrip('!')] *)
Definition name_of (msg : str) : result str :=
  let* fields := Str.split msg (lit ", ") in
  let* field := getitem fields 1 in
  Ok (Str.rstrip field (lit "!")).

(** [self.get_statistics()] *)
Definition get_statistics (self : t) : result statistics :=
  let total := length (greeting_history self) in
  if (total =? 0)%nat
  then Ok {| total_greetings := 0;
             unique_names := 0;
             most_common_greeting := None |}
  else
    let* greeting_words := mapM greeting_word (greeting_history self) in
    let greeting_counter := Counter.of_list greeting_words in
    let* top := getitem (Counter.most_common_1 greeting_counter) 0 in
    let most_common := fst top in
    let* names := mapM name_of (greeting_history self) in
    let unique_names := size (list_to_set (C := gset str) names) in
    Ok {| total_greetings := total;
          unique_names := unique_names;
          most_common_greeting := Some most_common |}.

(** [self.clear_history()] *)
Definition clear_history (self : t) : t :=
  {| default_greeting := default_greeting self;
     case_sensitive := case_sensitive self;
     greeting_history := [] |}.

End Greeter.

(** ** Notions of the specification *)

Definition whitespace (c : N) : Prop := Str.isspace c = true.

(** A text with at least one non-whitespace character. *)
Definition has_text (n : str) : Prop := ∃ c, c ∈ n ∧ Str.isspace c = false.

Definition has_textb (n : str) : bool :=
  existsb (λ c, negb (Str.isspace c)) n.

(** A valid name: a text value with at least one non-whitespace character. *)
Definition valid_name (v : value) : Prop := ∃ n, v = VStr n ∧ has_text n.

Definition valid_nameb (v : value) : bool :=
  match v with
  | VStr n => has_textb n
  | _ => false
  end.

(** The greeting message ["<greeting>, <trimmed name>!"]. *)
Definition message (g n : str) : str :=
  g ++ lit ", " ++ Str.strip n ++ lit "!".

(** The message of a name in a batch, when the name is valid. *)
Definition message_of (g : str) (v : value) : option str :=
  match v with
  | VStr n => if has_textb n then Some (message g n) else None
  | _ => None
  end.

(** Python's sequence types among the values: a [list], a [tuple] and a
    [str] are sequences ([collections.abc.Sequence]). *)
Definition is_sequence (v : value) : bool :=
  match v with
  | VList _ | VTuple _ | VStr _ => true
  | _ => false
  end.

(** The invalid-type errors a batch formatter raises on its own arguments. *)
Definition top_level_error (e : exn) : Prop :=
  e = TypeError "Names must be a list"
  ∨ e = TypeError "Greeting must be a string".

(** The Unicode database gives the whitespace code points above ASCII no
    case and maps each to itself, as Unicode does. *)
Definition keeps_whitespace (ud : UnicodeData) : Prop :=
  ∀ c, whitespace c → (128 ≤ c)%N → ud_cased ud c = false ∧ ud_title ud c = [c].

(** ASCII letters and their two cases. *)
Definition ascii_letter (c : N) : bool := Str.ascii_upper c || Str.ascii_lower c.

Definition to_upper (c : N) : N := if Str.ascii_lower c then (c - 32)%N else c.

Definition to_lower (c : N) : N := if Str.ascii_upper c then (c + 32)%N else c.

(** Position [i] of [n] starts a word: no letter stands before it. *)
Definition word_start (n : str) (i : nat) : bool :=
  match i with
  | O => true
  | S j =>
      match n !! j with
      | Some p => negb (ascii_letter p)
      | None => true
      end
  end.

(** The first occurrence of [sep] in [s]: the text before it and the
    text after it. *)
Fixpoint cut (sep s : str) : option (str * str) :=
  if Str.starts_with sep s then Some ([], drop (length sep) s)
  else
    match s with
    | [] => None
    | c :: s' =>
        match cut sep s' with
        | Some (a, b) => Some (c :: a, b)
        | None => None
        end
    end.

(** The text before the first comma of a message (the whole message when
    it has no comma). *)
Fixpoint before_comma (msg : str) : str :=
  match msg with
  | [] => []
  | c :: msg' => if (c =? 44)%N then [] else c :: before_comma msg'
  end.

(** The text between the first [", "] of a message and its trailing ["!"]. *)
Definition between_comma_and_bang (msg : str) : option str :=
  match cut (lit ", ") msg with
  | Some (_, rest) =>
      match rev rest with
      | c :: r => if (c =? 33)%N then Some (rev r) else None
      | [] => None
      end
  | None => None
  end.

(** The number of distinct names read that way from the messages. *)
Definition distinct_names (history : list str) : nat :=
  size (list_to_set (C := gset str) (omap between_comma_and_bang history)).

(** How often [w] occurs in [l]. *)
Definition count_of (w : str) (l : list str) : nat :=
  length (filter (λ x, x = w) l).

(** The highest count of a word of [l]. *)
Definition highest_count (l : list str) : nat :=
  max_list (map (λ w, count_of w l) l).

(** Reading the words in order, the first one whose count so far is [m]. *)
Fixpoint first_to_reach (m : nat) (seen rest : list str) : option str :=
  match rest with
  | [] => None
  | w :: rest' =>
      if (count_of w (w :: seen) =? m)%nat then Some w
      else first_to_reach m (w :: seen) rest'
  end.

(** The most frequent word, a tie going to the word that reaches the
    highest count first. *)
Definition first_reaching_highest (l : list str) : option str :=
  first_to_reach (highest_count l) [] l.

(** [w] is the most frequent word of [l], a tie going to the word that
    occurs first: no word is more frequent, and the words before the first
    [w] are less frequent. *)
Definition first_most_frequent (w : str) (l : list str) : Prop :=
  ∃ pre post,
    l = pre ++ w :: post
    ∧ (∀ x, x ∈ pre → count_of x l < count_of w l)
    ∧ (∀ x, x ∈ l → count_of x l ≤ count_of w l).

(** The counter of a list: its keys are the words of the list, once each
    and in the order of their first occurrences, each with its count. *)
Definition counts (l : list str) (c : Counter.t) : Prop :=
  NoDup (c.*1)
  ∧ (∀ k n, (k, n) ∈ c → n = count_of k l)
  ∧ (∀ x, x ∈ l → x ∈ (c.*1))
  ∧ (∀ K1 k K2, (c.*1) = K1 ++ k :: K2 →
       ∃ pre post, l = pre ++ k :: post ∧ ∀ y, y ∈ pre → y ∈ K1).

(** The name part of a message is plain: it holds no [", "] and does not
    end with ["!"]. *)
Definition plain_name_part (msg : str) : Prop :=
  ∃ n, between_comma_and_bang msg = Some n
       ∧ cut (lit ", ") n = None
       ∧ last n ≠ Some 33%N.

(** The greeter after a list of calls [self.greet(name, greeting)]. *)
Definition greet_calls (self : Greeter.t) (calls : list (str * str))
    : Greeter.t :=
  fold_left
    (λ self call,
       snd (Greeter.greet ascii_only self (VStr (fst call))
              (Some (VStr (snd call)))))
    calls self.

(** The same on a new [Greeter()]. *)
Definition greeter_after (calls : list (str * str)) : Greeter.t :=
  greet_calls
    {| Greeter.default_greeting := lit "Hello";
       Greeter.case_sensitive := true;
       Greeter.greeting_history := [] |}
    calls.

(** A call [greet(name, greeting)] with a valid name, no [", "] in the
    greeting or in the trimmed name, and no ["!"] at the end of the trimmed
    name. *)
Definition plain_call (call : str * str) : Prop :=
  has_text (fst call)
  ∧ cut (lit ", ") (snd call) = None
  ∧ cut (lit ", ") (Str.strip (fst call)) = None
  ∧ last (Str.strip (fst call)) ≠ Some 33%N.

(** A case-insensitive greeter that has greeted once, for the examples. *)
Definition hi_greeter : Greeter.t :=
  {| Greeter.default_greeting := lit "Hi";
     Greeter.case_sensitive := false;
     Greeter.greeting_history := [lit "Hi, World!"] |}.

(** An entry the tolerant formatter gets past: a valid name, or an
    invalid one whose [repr] does not raise. *)
Definition passable (rt : Runtime) (v : value) : Prop :=
  valid_nameb v = true ∨ repr rt v = None.

(** [v] inside [k] lists, one in the other. *)
Fixpoint nested (k : nat) (v : value) : value :=
  match k with
  | O => v
  | S k' => VList [nested k' v]
  end.

(** ** Sequences of calls on a greeter *)

(** The message of a call that returned. *)
Definition returned (r : result str) : option str :=
  match r with
  | Ok m => Some m
  | Raise _ => None
  end.

(** Calls [self.greet(name, greeting)] one after the other, each on the
    object the one before left; a call that raises is caught by the caller,
    who goes on. The results of the calls and the object after the last. *)
Fixpoint greet_many (ud : UnicodeData) (self : Greeter.t)
    (calls : list (value * option value)) : list (result str) * Greeter.t :=
  match calls with
  | [] => ([], self)
  | (name, greeting) :: calls' =>
      let r := Greeter.greet ud self name greeting in
      let rs := greet_many ud (snd r) calls' in
      (fst r :: fst rs, snd rs)
  end.

(** The calls that change a greeter. *)
Inductive call : Type :=
| CallGreet (name : value) (greeting : option value)
| CallClear.

(** The greeter after a list of such calls, exceptions of [greet] caught. *)
Definition run_calls (ud : UnicodeData) (self : Greeter.t)
    (calls : list call) : Greeter.t :=
  fold_left
    (λ self c,
       match c with
       | CallGreet name greeting => snd (Greeter.greet ud self name greeting)
       | CallClear => Greeter.clear_history self
       end)
    calls self.

(** A message holds the separator [", "] that [get_statistics] splits at. *)
Definition has_separator (msg : str) : Prop := is_Some (cut (lit ", ") msg).

(** * Properties *)

Example greet_world : greet (VStr (lit "World")) None = Ok (lit "Hello, World!").
Proof. reflexivity. Qed.

Example greet_alice :
  greet (VStr (lit "  Alice ")) (Some (VStr (lit "Hi "))) = Ok (lit "Hi , Alice!").
Proof. reflexivity. Qed.

Example title_ex :
  Str.title ascii_only (lit "they're bOB-3rd") = lit "They'Re Bob-3Rd".
Proof. reflexivity. Qed.

Example split_ex :
  Str.split (lit "a,, b, c") (lit ", ") = Ok [lit "a,"; lit "b"; lit "c"].
Proof. reflexivity. Qed.

Example safe_ex :
  greet_multiple_safe_locals default_runtime
    (VList [VStr (lit "Alice"); VStr []; VStr (lit "Bob"); VNone;
            VStr (lit "Charlie")]) None
  = Ok ([lit "Hello, Alice!"; lit "Hello, Bob!"; lit "Hello, Charlie!"], 2).
Proof. reflexivity. Qed.

Example stats_ex :
  let g0 := {| Greeter.default_greeting := lit "Hi";
               Greeter.case_sensitive := true;
               Greeter.greeting_history := [] |} in
  let g1 := snd (Greeter.greet ascii_only g0 (VStr (lit "World")) None) in
  let g2 := snd (Greeter.greet ascii_only g1 (VStr (lit "Bob")) (Some (VStr (lit "Yo")))) in
  let g3 := snd (Greeter.greet ascii_only g2 (VStr (lit "Bob")) (Some (VStr (lit "Yo")))) in
  Greeter.get_statistics g3
  = Ok {| total_greetings := 3; unique_names := 2;
          most_common_greeting := Some (lit "Yo") |}.
Proof. vm_compute. reflexivity. Qed.

Example init_default :
  Greeter.__init__ None None = Ok (greeter_after []).
Proof. reflexivity. Qed.

Example tie_example :
  Greeter.get_statistics
    (greeter_after [(lit "x", lit "A"); (lit "y", lit "B");
                    (lit "z", lit "B"); (lit "t", lit "A")])
  = Ok {| total_greetings := 4; unique_names := 4;
          most_common_greeting := Some (lit "A") |}
  ∧ first_reaching_highest [lit "A"; lit "B"; lit "B"; lit "A"] = Some (lit "B").
Proof. vm_compute. split; reflexivity. Qed.

(** ** Facts about [strip] *)

Lemma lstrip_by_nil (p : N -> bool) (s : str) :
  Str.lstrip_by p s = [] ↔ Forall (λ c, p c = true) s.
Proof.
  induction s as [|c s IH]; simpl.
  - split; [constructor | reflexivity].
  - destruct (p c) eqn:Hc.
    + rewrite IH. split; [by constructor | by inversion 1].
    + split; [discriminate | inversion 1; congruence].
Qed.

Lemma lstrip_by_split (p : N -> bool) (s : str) :
  ∃ l, s = l ++ Str.lstrip_by p s ∧ Forall (λ c, p c = true) l.
Proof.
  induction s as [|c s (l & Hs & Hl)]; simpl.
  - by exists [].
  - destruct (p c) eqn:Hc.
    + exists (c :: l). split; [by rewrite Hs at 1 | by constructor].
    + by exists [].
Qed.

Lemma lstrip_by_head (p : N -> bool) (s : str) (c : N) :
  head (Str.lstrip_by p s) = Some c → p c = false.
Proof.
  induction s as [|a s IH]; simpl; [discriminate|].
  destruct (p a) eqn:Ha; [exact IH|]. simpl. congruence.
Qed.

Lemma Forall_rev_iff (P : N -> Prop) (s : str) :
  Forall P (rev s) ↔ Forall P s.
Proof.
  split; intros H.
  - rewrite <- (rev_involutive s). by apply Forall_rev.
  - by apply Forall_rev.
Qed.

Lemma last_rev_head (s : str) : last (rev s) = head s.
Proof. destruct s as [|c s]; simpl; [reflexivity | apply last_snoc]. Qed.

Lemma rstrip_by_nil (p : N -> bool) (s : str) :
  Str.rstrip_by p s = [] ↔ Forall (λ c, p c = true) s.
Proof.
  unfold Str.rstrip_by. rewrite <- (Forall_rev_iff _ s), <- lstrip_by_nil.
  split; intros H.
  - apply (f_equal (@rev N)) in H. by rewrite rev_involutive in H.
  - by rewrite H.
Qed.

Lemma rstrip_by_split (p : N -> bool) (s : str) :
  ∃ r, s = Str.rstrip_by p s ++ r ∧ Forall (λ c, p c = true) r.
Proof.
  unfold Str.rstrip_by.
  destruct (lstrip_by_split p (rev s)) as (l & Hs & Hl).
  exists (rev l). split.
  - rewrite <- rev_app_distr, <- Hs. by rewrite rev_involutive.
  - by apply Forall_rev.
Qed.

Lemma rstrip_by_last (p : N -> bool) (s : str) (c : N) :
  last (Str.rstrip_by p s) = Some c → p c = false.
Proof.
  unfold Str.rstrip_by. rewrite last_rev_head. apply lstrip_by_head.
Qed.

(** [rstrip_by] only removes at the end: the first code point stays
    unless the whole string goes. *)
Lemma rstrip_by_head (p : N -> bool) (s : str) (c : N) :
  head (Str.rstrip_by p s) = Some c → head s = Some c.
Proof.
  destruct (rstrip_by_split p s) as (r & Hs & _).
  intros H. rewrite Hs. destruct (Str.rstrip_by p s); [discriminate|exact H].
Qed.

(** [strip] leaves nothing exactly on the strings that are empty or made
    of whitespace only. *)
Lemma strip_nil (s : str) : Str.strip s = [] ↔ Forall whitespace s.
Proof.
  unfold Str.strip, whitespace. rewrite rstrip_by_nil. split.
  - intros H. destruct (Str.lstrip_by Str.isspace s) as [|c s'] eqn:E.
    + by apply lstrip_by_nil.
    + apply Forall_cons_1 in H as [Hc _].
      pose proof (lstrip_by_head Str.isspace s c) as Hh.
      rewrite E in Hh. specialize (Hh eq_refl). congruence.
  - intros H. apply lstrip_by_nil in H. rewrite H. constructor.
Qed.

(** What [strip] returns: the string without a whitespace prefix and a
    whitespace suffix, neither starting nor ending with whitespace. *)
Lemma strip_spec (s : str) :
  ∃ l r, s = l ++ Str.strip s ++ r
         ∧ Forall whitespace l ∧ Forall whitespace r
         ∧ (∀ c, head (Str.strip s) = Some c → Str.isspace c = false)
         ∧ (∀ c, last (Str.strip s) = Some c → Str.isspace c = false).
Proof.
  unfold Str.strip.
  destruct (lstrip_by_split Str.isspace s) as (l & Hs & Hl).
  destruct (rstrip_by_split Str.isspace (Str.lstrip_by Str.isspace s))
    as (r & Hm & Hr).
  exists l, r. repeat split; try assumption.
  - by rewrite <- Hm.
  - intros c Hc. apply rstrip_by_head in Hc. by apply lstrip_by_head in Hc.
  - apply rstrip_by_last.
Qed.

Lemma strip_truthy (s : str) :
  Str.truthy (Str.strip s) = true ↔ ∃ c, c ∈ s ∧ Str.isspace c = false.
Proof.
  split.
  - intros H. destruct (Str.strip s) as [|c t] eqn:E; [discriminate|].
    destruct (strip_spec s) as (l & r & Hs & _ & _ & Hh & _).
    rewrite E in Hs, Hh. exists c. split; [|by apply Hh].
    rewrite Hs. set_solver.
  - intros (c & Hin & Hc). destruct (Str.strip s) eqn:E; [|reflexivity].
    apply strip_nil in E. rewrite Forall_forall in E.
    specialize (E c Hin). unfold whitespace in E. congruence.
Qed.

Lemma truthy_false (s : str) : Str.truthy s = false ↔ s = [].
Proof. destruct s; simpl; split; congruence. Qed.

(** The test [not name or not name.strip()] of [greet]. *)
Lemma greet_test (n : str) :
  negb (Str.truthy n) || negb (Str.truthy (Str.strip n)) = true
  ↔ Str.strip n = [].
Proof.
  rewrite orb_true_iff, !negb_true_iff, !truthy_false. split.
  - intros [-> | H]; [reflexivity | exact H].
  - by right.
Qed.

Lemma has_textb_spec (n : str) : has_textb n = true ↔ has_text n.
Proof.
  unfold has_textb, has_text. rewrite existsb_exists. split.
  - intros (c & Hin & Hc). exists c. split; [by apply list_elem_of_In|].
    by apply negb_true_iff.
  - intros (c & Hin & Hc). exists c. split; [by apply list_elem_of_In|].
    by apply negb_true_iff.
Qed.

Lemma has_text_strip (n : str) : has_text n ↔ Str.strip n ≠ [].
Proof.
  unfold has_text. rewrite <- strip_truthy.
  destruct (Str.strip n); simpl; split; congruence.
Qed.

Lemma not_has_text (n : str) : ¬ has_text n ↔ Forall whitespace n.
Proof.
  rewrite has_text_strip, <- strip_nil.
  destruct (Str.strip n); split; try congruence. intros H. by destruct H.
Qed.

Lemma text_or_blank (n : str) : has_text n ∨ Forall whitespace n.
Proof.
  destruct (has_textb n) eqn:E.
  - left. by apply has_textb_spec.
  - right. apply not_has_text. rewrite <- has_textb_spec. congruence.
Qed.

Lemma str_and_strips_spec (v : value) : str_and_strips v = valid_nameb v.
Proof.
  destruct v as [| | |n| |]; simpl; try reflexivity.
  apply eq_true_iff_eq. by rewrite strip_truthy, has_textb_spec.
Qed.

Lemma valid_nameb_spec (v : value) : valid_nameb v = true ↔ valid_name v.
Proof.
  unfold valid_name. destruct v as [| | |n| |]; simpl;
    try (split; [discriminate | intros (n' & [=] & _)]).
  rewrite has_textb_spec. split.
  - intros H. by exists n.
  - by intros (n' & [= <-] & H).
Qed.

(** ** [greet] *)

Lemma greet_text (n g : str) :
  has_text n → greet (VStr n) (Some (VStr g)) = Ok (message g n).
Proof.
  intros H. apply has_text_strip in H. unfold greet, message. simpl.
  destruct (negb (Str.truthy n) || negb (Str.truthy (Str.strip n))) eqn:E;
    [|reflexivity].
  by apply greet_test in E.
Qed.

Lemma greet_blank (n g : str) :
  Forall whitespace n →
  greet (VStr n) (Some (VStr g))
  = Raise (ValueError "Name cannot be empty or whitespace only").
Proof.
  intros H. apply strip_nil, greet_test in H. unfold greet. simpl.
  by rewrite H.
Qed.

Lemma greet_not_str_name (name : value) (greeting : option value) :
  isinstance_str name = false →
  greet name greeting = Raise (TypeError "Name must be a string").
Proof. by destruct name. Qed.

Lemma greet_not_str_greeting (n : str) (greeting : value) :
  isinstance_str greeting = false →
  greet (VStr n) (Some greeting) = Raise (TypeError "Greeting must be a string").
Proof. by destruct greeting. Qed.

Lemma greet_valid (name : value) (g : str) :
  valid_name name → ∃ n, name = VStr n ∧ greet name (Some (VStr g)) = Ok (message g n).
Proof. intros (n & -> & H). exists n. split; [reflexivity | by apply greet_text]. Qed.

Lemma greet_invalid (name : value) (g : str) :
  ¬ valid_name name → ∃ e, greet name (Some (VStr g)) = Raise e.
Proof.
  intros H. destruct name as [| | |n| |];
    try (eexists; reflexivity).
  eexists. apply greet_blank, not_has_text. intros Hn. apply H. by exists n.
Qed.

(** C1: for text values [n] and [g], [n] with at least one non-whitespace
    character, [greet(n, g)] returns exactly [g + ", " + n.strip() + "!"]:
    the greeting is taken as it is and only the name is trimmed, where the
    trimmed name is [n] without its whitespace prefix and suffix; a call
    without the greeting uses ["Hello"]. *)
Theorem C1_greet_format (n g : str) :
  has_text n →
  greet (VStr n) (Some (VStr g)) = Ok (g ++ lit ", " ++ Str.strip n ++ lit "!")
  ∧ greet (VStr n) None = Ok (lit "Hello" ++ lit ", " ++ Str.strip n ++ lit "!")
  ∧ ∃ l r, n = l ++ Str.strip n ++ r
           ∧ Forall whitespace l ∧ Forall whitespace r
           ∧ (∀ c, head (Str.strip n) = Some c → ¬ whitespace c)
           ∧ (∀ c, last (Str.strip n) = Some c → ¬ whitespace c).
Proof.
  intros H. split; [|split].
  - by apply greet_text.
  - by apply (greet_text n (lit "Hello")).
  - destruct (strip_spec n) as (l & r & Hn & Hl & Hr & Hh & Ht).
    exists l, r. unfold whitespace in *.
    repeat split; try assumption.
    + intros c Hc. rewrite (Hh c Hc). discriminate.
    + intros c Hc. rewrite (Ht c Hc). discriminate.
Qed.

Lemma C1_greet_format_witness :
  greet (VStr (lit "  Ada Lovelace ")) (Some (VStr (lit " Good day ")))
  = Ok (lit " Good day , Ada Lovelace!").
Proof.
  refine (proj1 (C1_greet_format (lit "  Ada Lovelace ") (lit " Good day ") _)).
  exists 65%N. split; [|reflexivity]. vm_compute. set_solver.
Defined.

(** C2: [greet] raises a [TypeError] exactly when the name or the
    greeting is not a [str]; for a [str] name and greeting it raises a
    [ValueError] exactly when the stripped name is empty, that is when the
    name is empty or whitespace only; and it returns a message in every
    other case. *)
Theorem C2_greet_errors (name greeting : value) (n g : str) :
  ((∃ msg, greet name (Some greeting) = Raise (TypeError msg))
   ↔ isinstance_str name = false ∨ isinstance_str greeting = false)
  ∧ ((∃ msg, greet (VStr n) (Some (VStr g)) = Raise (ValueError msg))
     ↔ Str.strip n = [])
  ∧ (Str.strip n = [] ↔ Forall whitespace n)
  ∧ ((∃ m, greet name (Some greeting) = Ok m)
     ↔ ∃ n' g', name = VStr n' ∧ greeting = VStr g' ∧ Str.strip n' ≠ []).
Proof.
  split; [|split; [|split]].
  - split.
    + intros (msg & H). destruct name as [| | |n'| |]; try by left.
      destruct greeting as [| | |g'| |]; try by right.
      destruct (text_or_blank n') as [Hn|Hn].
      * by rewrite greet_text in H.
      * by rewrite greet_blank in H.
    + intros [H|H].
      * eexists. by apply greet_not_str_name.
      * destruct name as [| | |n'| |]; try (eexists; reflexivity).
        eexists. by apply greet_not_str_greeting.
  - split.
    + intros (msg & H). destruct (text_or_blank n) as [Hn|Hn].
      * by rewrite greet_text in H.
      * by apply strip_nil.
    + intros H. eexists. by apply greet_blank, strip_nil.
  - apply strip_nil.
  - split.
    + intros (m & H). destruct name as [| | |n'| |]; try discriminate.
      destruct greeting as [| | |g'| |]; try discriminate.
      exists n', g'. repeat split. intros Hn.
      apply strip_nil in Hn. by rewrite greet_blank in H.
    + intros (n' & g' & -> & -> & H). eexists.
      by apply greet_text, has_text_strip.
Qed.

(** ** The batch formatters *)

Lemma message_of_spec (g : str) (v : value) (m : str) :
  message_of g v = Some m
  ↔ valid_name v ∧ greet v (Some (VStr g)) = Ok m.
Proof.
  split.
  - destruct v as [| | |n| |]; simpl; try discriminate.
    destruct (has_textb n) eqn:E; [|discriminate]. intros [= <-].
    apply has_textb_spec in E. split; [by exists n | by apply greet_text].
  - intros [(n & -> & Hn) H]. rewrite greet_text in H by done.
    injection H as <-. simpl. apply has_textb_spec in Hn. by rewrite Hn.
Qed.

Lemma message_of_None (g : str) (v : value) :
  message_of g v = None ↔ ¬ valid_name v.
Proof.
  rewrite <- valid_nameb_spec.
  destruct v as [| | |n| |]; simpl; try (split; [intros _; discriminate | reflexivity]).
  destruct (has_textb n); split; intros H; done.
Qed.

Lemma greet_multiple_loop_app (g : str) (pre rest : list value)
    (msgs acc : list str) :
  Forall2 (λ name m, greet name (Some (VStr g)) = Ok m) pre msgs →
  greet_multiple_loop (VStr g) acc (pre ++ rest)
  = greet_multiple_loop (VStr g) (acc ++ msgs) rest.
Proof.
  intros H. revert acc.
  induction H as [|name m pre msgs Hm _ IH]; intros acc; simpl.
  - by rewrite app_nil_r.
  - rewrite Hm. simpl. rewrite IH. by rewrite <- app_assoc.
Qed.

Lemma valid_names_messages (g : str) (names : list value) :
  Forall valid_name names →
  Forall2 (λ name m, greet name (Some (VStr g)) = Ok m) names
    (omap (message_of g) names).
Proof.
  induction 1 as [|name names Hv _ IH]; simpl; [constructor|].
  destruct (greet_valid name g Hv) as (n & -> & Hm).
  destruct (message_of g (VStr n)) as [m|] eqn:E.
  - constructor; [|exact IH]. by apply message_of_spec in E as [_ E].
  - apply message_of_None in E. by destruct E.
Qed.

(** The first invalid name of a list that has one. *)
Lemma first_invalid (names : list value) :
  ¬ Forall valid_name names →
  ∃ pre x post,
    names = pre ++ x :: post ∧ Forall valid_name pre ∧ ¬ valid_name x.
Proof.
  induction names as [|v names IH]; intros H.
  - destruct H. constructor.
  - destruct (valid_nameb v) eqn:E.
    + apply valid_nameb_spec in E.
      destruct IH as (pre & x & post & -> & Hpre & Hx).
      { intros Hn. apply H. by constructor. }
      exists (v :: pre), x, post. repeat split; [by constructor | exact Hx].
    + exists [], v, names. repeat split; [constructor|].
      rewrite <- valid_nameb_spec. congruence.
Qed.

Lemma greet_multiple_loop_fail (g : str) (pre post : list value) (x : value)
    (e : exn) :
  Forall valid_name pre →
  greet x (Some (VStr g)) = Raise e →
  greet_multiple_loop (VStr g) [] (pre ++ x :: post) = Raise e.
Proof.
  intros Hpre Hx.
  rewrite (greet_multiple_loop_app g pre (x :: post) _ []
             (valid_names_messages g pre Hpre)).
  simpl. by rewrite Hx.
Qed.

(** C4: on a list of valid names and a text greeting [greet_multiple]
    returns the messages of the names, as many as the names and in their
    order, each the result of [greet] on its name, and the empty list on
    the empty list; when a name is invalid the call raises the error
    [greet] raises on the first such name, and returns no list. *)
Theorem C4_greet_multiple (names : list value) (g : str) :
  (Forall valid_name names →
   ∃ msgs,
     greet_multiple (VList names) (Some (VStr g)) = Ok msgs
     ∧ length msgs = length names
     ∧ Forall2 (λ name m, greet name (Some (VStr g)) = Ok m) names msgs)
  ∧ (∀ pre x post,
       names = pre ++ x :: post → Forall valid_name pre → ¬ valid_name x →
       ∃ e, greet x (Some (VStr g)) = Raise e
            ∧ greet_multiple (VList names) (Some (VStr g)) = Raise e)
  ∧ (¬ Forall valid_name names →
     ∃ e x, x ∈ names ∧ ¬ valid_name x
            ∧ greet x (Some (VStr g)) = Raise e
            ∧ greet_multiple (VList names) (Some (VStr g)) = Raise e)
  ∧ greet_multiple (VList []) (Some (VStr g)) = Ok [].
Proof.
  split; [|split; [|split]].
  - intros H. pose proof (valid_names_messages g names H) as Hm.
    exists (omap (message_of g) names). split; [|split].
    + unfold greet_multiple. simpl.
      rewrite <- (app_nil_r names) at 1.
      by rewrite (greet_multiple_loop_app g names [] _ [] Hm).
    + symmetry. by eapply Forall2_length.
    + exact Hm.
  - intros pre x post -> Hpre Hx.
    destruct (greet_invalid x g Hx) as (e & He). exists e.
    split; [exact He|]. unfold greet_multiple. simpl.
    by apply greet_multiple_loop_fail.
  - intros H. destruct (first_invalid names H) as (pre & x & post & -> & Hpre & Hx).
    destruct (greet_invalid x g Hx) as (e & He). exists e, x.
    repeat split; [set_solver | exact Hx | exact He |].
    unfold greet_multiple. simpl. by apply greet_multiple_loop_fail.
  - reflexivity.
Qed.

Lemma C4_greet_multiple_witness :
  (∃ msgs,
     greet_multiple (VList [VStr (lit "Alice"); VStr (lit " Bob")])
       (Some (VStr (lit "Hello"))) = Ok msgs
     ∧ length msgs = 2
     ∧ Forall2 (λ name m, greet name (Some (VStr (lit "Hello"))) = Ok m)
         [VStr (lit "Alice"); VStr (lit " Bob")] msgs)
  ∧ ∃ e, greet (VStr (lit " ")) (Some (VStr (lit "Hello"))) = Raise e
         ∧ greet_multiple (VList [VStr (lit "Alice"); VStr (lit " "); VInt 3])
             (Some (VStr (lit "Hello"))) = Raise e.
Proof.
  split.
  - apply (proj1 (C4_greet_multiple [VStr (lit "Alice"); VStr (lit " Bob")]
                    (lit "Hello"))).
    repeat constructor; apply valid_nameb_spec; reflexivity.
  - apply (proj1 (proj2 (C4_greet_multiple
                           [VStr (lit "Alice"); VStr (lit " "); VInt 3]
                           (lit "Hello")))
             [VStr (lit "Alice")] (VStr (lit " ")) [VInt 3]).
    + reflexivity.
    + repeat constructor; apply valid_nameb_spec; reflexivity.
    + rewrite <- valid_nameb_spec. discriminate.
Defined.

Lemma safe_turn_valid (rt : Runtime) (g : str) (v : value)
    (greetings : list str) (skipped_count : nat) (m : str) :
  message_of g v = Some m →
  safe_turn rt (VStr g) v greetings skipped_count
  = ((greetings ++ [m], skipped_count), None).
Proof.
  intros Hm. apply message_of_spec in Hm as [Hv Hm].
  unfold safe_turn, safe_try. rewrite str_and_strips_spec.
  apply valid_nameb_spec in Hv. by rewrite Hv, Hm.
Qed.

(** A turn on an invalid entry: counted once when [repr] returns; when
    [repr] raises, the exception leaves the turn, after a second count if
    the [except] clause caught it first. *)
Lemma safe_turn_invalid (rt : Runtime) (greeting v : value)
    (greetings : list str) (skipped_count : nat) :
  valid_nameb v = false →
  safe_turn rt greeting v greetings skipped_count
  = match repr rt v with
    | None => ((greetings, skipped_count + 1), None)
    | Some e =>
        ((greetings, if caught e then skipped_count + 1 + 1
                     else skipped_count + 1), Some e)
    end.
Proof.
  intros Hv. unfold safe_turn, safe_try, safe_except, warn_skipping.
  rewrite str_and_strips_spec, Hv.
  destruct (repr rt v) as [e|]; [|reflexivity].
  by destruct (caught e).
Qed.

Lemma greet_multiple_safe_loop_app (rt : Runtime) (greeting : value)
    (l1 l2 : list value) (greetings : list str) (skipped_count : nat) :
  greet_multiple_safe_loop rt greeting greetings skipped_count (l1 ++ l2)
  = (let* locals :=
       greet_multiple_safe_loop rt greeting greetings skipped_count l1 in
     greet_multiple_safe_loop rt greeting (fst locals) (snd locals) l2).
Proof.
  revert greetings skipped_count.
  induction l1 as [|v l1 IH]; intros greetings skipped_count; [reflexivity|].
  simpl.
  destruct (safe_turn rt greeting v greetings skipped_count)
    as [[greetings' skipped_count'] [e|]]; [reflexivity|].
  apply IH.
Qed.

Lemma greet_multiple_safe_loop_spec (rt : Runtime) (g : str)
    (names : list value) (greetings : list str) (skipped_count : nat) :
  Forall (passable rt) names →
  greet_multiple_safe_loop rt (VStr g) greetings skipped_count names
  = Ok (greetings ++ omap (message_of g) names,
        skipped_count + length (filter (λ v, valid_nameb v = false) names)).
Proof.
  intros H. revert greetings skipped_count.
  induction H as [|v names Hv _ IH]; intros greetings skipped_count.
  - simpl. by rewrite app_nil_r, Nat.add_0_r.
  - cbn [greet_multiple_safe_loop].
    destruct (valid_nameb v) eqn:E.
    + rewrite filter_cons_False by congruence.
      destruct (message_of g v) as [m|] eqn:Em.
      * rewrite (safe_turn_valid rt g v _ _ m Em), IH. simpl. rewrite Em.
        by rewrite <- app_assoc.
      * apply message_of_None in Em. apply valid_nameb_spec in E. done.
    + destruct Hv as [Hv|Hv]; [congruence|].
      rewrite (safe_turn_invalid rt _ v _ _ E), Hv, IH.
      rewrite filter_cons_True by done.
      assert (message_of g v = None) as Hm.
      { apply message_of_None. rewrite <- valid_nameb_spec. congruence. }
      simpl. rewrite Hm. do 2 f_equal. simpl. lia.
Qed.

Lemma greet_multiple_safe_loop_raises (rt : Runtime) (g : str)
    (pre post : list value) (x : value) (e : exn) (greetings : list str)
    (skipped_count : nat) :
  Forall (passable rt) pre →
  valid_nameb x = false →
  repr rt x = Some e →
  greet_multiple_safe_loop rt (VStr g) greetings skipped_count
    (pre ++ x :: post)
  = Raise e.
Proof.
  intros Hpre Hx He.
  rewrite greet_multiple_safe_loop_app, (greet_multiple_safe_loop_spec _ _ _ _ _ Hpre).
  cbn [bind fst snd greet_multiple_safe_loop].
  by rewrite (safe_turn_invalid rt _ x _ _ Hx), He.
Qed.

(** Every entry is passable, or there is a first one that is not. *)
Lemma passable_or_not (rt : Runtime) (names : list value) :
  Forall (passable rt) names
  ∨ ∃ pre x post e,
      names = pre ++ x :: post ∧ Forall (passable rt) pre
      ∧ valid_nameb x = false ∧ repr rt x = Some e.
Proof.
  induction names as [|v names IH]; [left; constructor|].
  destruct (valid_nameb v) eqn:Ev.
  - destruct IH as [IH | (pre & x & post & e & -> & Hpre & Hx & He)].
    + left. constructor; [by left | exact IH].
    + right. exists (v :: pre), x, post, e.
      repeat split; try done. constructor; [by left | exact Hpre].
  - destruct (repr rt v) as [e|] eqn:Er.
    + right. exists [], v, names, e. repeat split; done.
    + destruct IH as [IH | (pre & x & post & e & -> & Hpre & Hx & He)].
      * left. constructor; [by right | exact IH].
      * right. exists (v :: pre), x, post, e.
        repeat split; try done. constructor; [by right | exact Hpre].
Qed.

Lemma safe_batch_ok (rt : Runtime) (names : list value) (g : str) :
  Forall (passable rt) names →
  greet_multiple_safe rt (VList names) (Some (VStr g))
  = Ok (omap (message_of g) names)
  ∧ greet_multiple_safe_locals rt (VList names) (Some (VStr g))
    = Ok (omap (message_of g) names,
          length (filter (λ v, valid_nameb v = false) names)).
Proof.
  intros Hp.
  assert (greet_multiple_safe_locals rt (VList names) (Some (VStr g))
          = Ok (omap (message_of g) names,
                length (filter (λ v, valid_nameb v = false) names))) as H.
  { unfold greet_multiple_safe_locals. simpl.
    by rewrite greet_multiple_safe_loop_spec. }
  split; [|exact H]. unfold greet_multiple_safe. by rewrite H.
Qed.

Lemma safe_batch_raises (rt : Runtime) (g : str) (pre post : list value)
    (x : value) (e : exn) :
  Forall (passable rt) pre →
  valid_nameb x = false →
  repr rt x = Some e →
  greet_multiple_safe rt (VList (pre ++ x :: post)) (Some (VStr g)) = Raise e
  ∧ greet_multiple_safe_locals rt (VList (pre ++ x :: post)) (Some (VStr g))
    = Raise e.
Proof.
  intros Hpre Hx He.
  assert (greet_multiple_safe_locals rt (VList (pre ++ x :: post))
            (Some (VStr g)) = Raise e) as H.
  { unfold greet_multiple_safe_locals. simpl.
    by apply greet_multiple_safe_loop_raises. }
  split; [|exact H]. unfold greet_multiple_safe. by rewrite H.
Qed.

(** What [repr] raises is the [ValueError] of the digit limit or a
    [RecursionError]. *)
Lemma repr_error_kind (rt : Runtime) (depth : nat) (v : value) (e : exn) :
  repr_error rt depth v = Some e →
  e = ValueError (int_max_str_error rt)
  ∨ e = RecursionError
          "maximum recursion depth exceeded while getting the repr of an object".
Proof.
  revert v. induction depth as [|depth IH]; intros v.
  - destruct v; simpl; try discriminate.
    + destruct (over_digits _ _); [|discriminate]. intros [= <-]. by left.
    + intros [= <-]. by right.
    + intros [= <-]. by right.
  - assert (∀ l, first_error (repr_error rt depth) l = Some e →
                 e = ValueError (int_max_str_error rt)
                 ∨ e = RecursionError
                         "maximum recursion depth exceeded while getting the repr of an object")
      as Hl.
    { induction l as [|a l IHl]; simpl; [discriminate|].
      destruct (repr_error rt depth a) eqn:Ea; [|exact IHl].
      intros [= ->]. by apply (IH a). }
    destruct v; simpl; try discriminate; try apply Hl.
    destruct (over_digits _ _); [|discriminate]. intros [= <-]. by left.
Qed.

Lemma nested_raises (rt : Runtime) (depth : nat) :
  repr_error rt depth (nested (S depth) VNone)
  = Some (RecursionError
            "maximum recursion depth exceeded while getting the repr of an object").
Proof.
  induction depth as [|depth IH]; [reflexivity|].
  change (nested (S (S depth)) VNone) with (VList [nested (S depth) VNone]).
  cbn [repr_error first_error]. by rewrite IH.
Qed.

Lemma over_digits_power (limit : N) :
  (0 < limit)%N → over_digits limit (10 ^ Z.of_N limit) = true.
Proof.
  intros H. unfold over_digits. apply andb_true_iff. split.
  - by apply N.ltb_lt.
  - apply Z.leb_le. rewrite Z.abs_eq; [lia|]. apply Z.pow_nonneg. lia.
Qed.

Lemma safe_default (rt : Runtime) (names : value) :
  greet_multiple_safe rt names None
  = greet_multiple_safe rt names (Some (VStr (lit "Hello"))).
Proof. reflexivity. Qed.

Lemma ten_to_4300 :
  repr default_runtime (VInt (10 ^ 4300))
  = Some (ValueError (int_max_str_error default_runtime)).
Proof.
  pose proof (over_digits_power 4300 eq_refl) as H.
  change (Z.of_N 4300) with 4300%Z in H.
  unfold repr.
  cbn [repr_depth default_runtime repr_error int_max_str_digits].
  by rewrite H.
Qed.

(** C6, the code on the failing inputs: an invalid entry is skipped only
    if [repr] of it returns, since the warning formats it first. On an
    [int] with more digits than the interpreter's limit
    [greet_multiple_safe] raises the [ValueError] of the conversion, out of
    the [except] clause that caught it once; on an entry nested deeper than
    the recursion limit allows it raises [RecursionError]; the passable
    entries before and the entries after do not matter. With the defaults
    the call on [["Alice", 10**4300]] raises. *)
Theorem C6_skipped_entry_raises (rt : Runtime) (g : str)
    (pre post : list value) :
  (Forall (passable rt) pre → (0 < int_max_str_digits rt)%N →
   greet_multiple_safe rt
     (VList (pre ++ VInt (10 ^ Z.of_N (int_max_str_digits rt)) :: post))
     (Some (VStr g))
   = Raise (ValueError (int_max_str_error rt)))
  ∧ (Forall (passable rt) pre →
     greet_multiple_safe rt
       (VList (pre ++ nested (S (repr_depth rt)) VNone :: post))
       (Some (VStr g))
     = Raise (RecursionError
                "maximum recursion depth exceeded while getting the repr of an object"))
  ∧ greet_multiple_safe default_runtime
      (VList [VStr (lit "Alice"); VInt (10 ^ 4300)]) None
    = Raise (ValueError (int_max_str_error default_runtime))
  ∧ valid_nameb (VInt (10 ^ 4300)) = false.
Proof.
  split; [|split; [|split]].
  - intros Hpre Hlimit. apply safe_batch_raises; [exact Hpre | reflexivity |].
    unfold repr. destruct (repr_depth rt); simpl;
      by rewrite over_digits_power.
  - intros Hpre. apply safe_batch_raises; [exact Hpre | reflexivity |].
    apply nested_raises.
  - rewrite safe_default.
    assert (Forall (passable default_runtime) [VStr (lit "Alice")]) as Hpre.
    { constructor; [by left | constructor]. }
    exact (proj1 (safe_batch_raises default_runtime (lit "Hello")
                    [VStr (lit "Alice")] [] (VInt (10 ^ 4300))
                    (ValueError (int_max_str_error default_runtime))
                    Hpre eq_refl ten_to_4300)).
  - reflexivity.
Qed.

Lemma greet_str_greeting_error (name : value) (g : str) (e : exn) :
  greet name (Some (VStr g)) = Raise e →
  e = TypeError "Name must be a string"
  ∨ e = ValueError "Name cannot be empty or whitespace only".
Proof.
  destruct name as [| | |n| |]; try (intros [= <-]; by left).
  destruct (text_or_blank n) as [Hn|Hn].
  - by rewrite greet_text.
  - rewrite greet_blank by done. intros [= <-]. by right.
Qed.

Lemma greet_multiple_loop_error (g : str) (names : list value)
    (greetings : list str) (e : exn) :
  greet_multiple_loop (VStr g) greetings names = Raise e →
  ¬ top_level_error e.
Proof.
  revert greetings.
  induction names as [|name names IH]; intros greetings; simpl; [discriminate|].
  destruct (greet name (Some (VStr g))) as [m|e'] eqn:E; simpl.
  - apply IH.
  - intros [= ->]. apply greet_str_greeting_error in E.
    unfold top_level_error. intros [H|H]; destruct E as [E|E]; congruence.
Qed.

(** C5, the claim as stated fails: a tuple of names is a sequence, and
    both batch formatters raise the [TypeError] of a names argument that is
    not a list on it. *)
Lemma C5_tuple_rejected :
  is_sequence (VTuple [VStr (lit "Alice"); VStr (lit "Bob")]) = true
  ∧ greet_multiple (VTuple [VStr (lit "Alice"); VStr (lit "Bob")])
      (Some (VStr (lit "Hello")))
    = Raise (TypeError "Names must be a list")
  ∧ greet_multiple_safe default_runtime
      (VTuple [VStr (lit "Alice"); VStr (lit "Bob")])
      (Some (VStr (lit "Hello")))
    = Raise (TypeError "Names must be a list").
Proof. repeat split. Qed.

(** C5, amended: each batch formatter raises a [TypeError] on its own
    arguments exactly when the names argument is not a [list] or the
    greeting is not a [str]; the names argument is tested first. Every
    [list] is accepted as the names argument, and no other value is. *)
Theorem C5_batch_type_errors (rt : Runtime) (names greeting : value) :
  ((∃ e, greet_multiple names (Some greeting) = Raise e ∧ top_level_error e)
   ↔ isinstance_list names = false ∨ isinstance_str greeting = false)
  ∧ ((∃ e, greet_multiple_safe rt names (Some greeting) = Raise e
           ∧ top_level_error e)
     ↔ isinstance_list names = false ∨ isinstance_str greeting = false)
  ∧ (isinstance_list names = false →
     greet_multiple names (Some greeting)
     = Raise (TypeError "Names must be a list")
     ∧ greet_multiple_safe rt names (Some greeting)
       = Raise (TypeError "Names must be a list"))
  ∧ (isinstance_list names = true → isinstance_str greeting = false →
     greet_multiple names (Some greeting)
     = Raise (TypeError "Greeting must be a string")
     ∧ greet_multiple_safe rt names (Some greeting)
       = Raise (TypeError "Greeting must be a string")).
Proof.
  assert (isinstance_list names = false →
          greet_multiple names (Some greeting)
          = Raise (TypeError "Names must be a list")
          ∧ greet_multiple_safe rt names (Some greeting)
            = Raise (TypeError "Names must be a list")) as Hnames.
  { by destruct names. }
  assert (isinstance_list names = true → isinstance_str greeting = false →
          greet_multiple names (Some greeting)
          = Raise (TypeError "Greeting must be a string")
          ∧ greet_multiple_safe rt names (Some greeting)
            = Raise (TypeError "Greeting must be a string")) as Hgreeting.
  { destruct names; try discriminate. by destruct greeting. }
  assert (isinstance_list names = false ∨ isinstance_str greeting = false →
          ∃ e, (greet_multiple names (Some greeting) = Raise e
                ∧ greet_multiple_safe rt names (Some greeting) = Raise e)
               ∧ top_level_error e) as Hboth.
  { intros H. destruct (isinstance_list names) eqn:El.
    - destruct H as [H|H]; [discriminate|]. eexists. split.
      + by apply Hgreeting.
      + by right.
    - eexists. split; [by apply Hnames | by left]. }
  split; [|split; [|split]]; try assumption.
  - split.
    + intros (e & He & Htop).
      destruct names as [| | | |l|]; try by left.
      destruct greeting as [| | |g| |]; try by right.
      unfold greet_multiple in He. simpl in He.
      by apply greet_multiple_loop_error in He.
    + intros H. destruct (Hboth H) as (e & [He _] & Htop). by exists e.
  - split.
    + intros (e & He & Htop).
      destruct names as [| | | |l|]; try by left.
      destruct greeting as [| | |g| |]; try by right.
      destruct (passable_or_not rt l)
        as [Hp | (pre & x & post & e' & -> & Hpre & Hx & Hr)].
      * by rewrite (proj1 (safe_batch_ok rt l g Hp)) in He.
      * rewrite (proj1 (safe_batch_raises rt g pre post x e' Hpre Hx Hr)) in He.
        injection He as ->. apply repr_error_kind in Hr.
        unfold top_level_error in Htop.
        destruct Hr as [-> | ->], Htop as [? | ?]; discriminate.
    + intros H. destruct (Hboth H) as (e & [_ He] & Htop). by exists e.
Qed.

Lemma C5_batch_type_errors_witness :
  greet_multiple (VStr (lit "Alice")) (Some (VStr (lit "Hello")))
  = Raise (TypeError "Names must be a list")
  ∧ greet_multiple_safe default_runtime (VList [VStr (lit "Alice")])
      (Some (VInt 123))
    = Raise (TypeError "Greeting must be a string").
Proof.
  split.
  - apply (proj1 (proj2 (proj2 (C5_batch_type_errors default_runtime
                                  (VStr (lit "Alice"))
                                  (VStr (lit "Hello")))))).
    reflexivity.
  - apply (proj2 (proj2 (proj2 (C5_batch_type_errors default_runtime
                                  (VList [VStr (lit "Alice")]) (VInt 123))))).
    + reflexivity.
    + reflexivity.
Defined.

(** ** [title] *)

Lemma whitespace_ascii_uncased (c : N) :
  whitespace c → (c <? 128)%N = true →
  Str.ascii_upper c = false ∧ Str.ascii_lower c = false.
Proof.
  unfold whitespace, Str.isspace, Str.ascii_upper, Str.ascii_lower.
  intros H Hc. apply N.ltb_lt in Hc.
  split; apply andb_false_iff; rewrite !N.leb_gt;
    repeat (apply orb_true_iff in H as [H|H]);
    try (apply andb_true_iff in H as [H1 H2];
         apply N.leb_le in H1; apply N.leb_le in H2);
    try apply N.eqb_eq in H; lia.
Qed.

Lemma whitespace_title (ud : UnicodeData) (c : N) :
  keeps_whitespace ud → whitespace c →
  Str.is_cased ud c = false ∧ Str.to_title_full ud c = [c].
Proof.
  intros Hud Hc. unfold Str.is_cased, Str.to_title_full.
  destruct (c <? 128)%N eqn:E.
  - destruct (whitespace_ascii_uncased c Hc E) as [-> ->]. by split.
  - apply Hud; [exact Hc|]. by apply N.ltb_ge.
Qed.

Lemma do_title_blank (ud : UnicodeData) (s rest : str) (i : nat) :
  keeps_whitespace ud → Forall whitespace rest →
  Str.do_title ud s i false rest = rest.
Proof.
  intros Hud H. revert i. induction H as [|c rest Hc _ IH]; intros i; simpl.
  - reflexivity.
  - destruct (whitespace_title ud c Hud Hc) as [-> ->]. simpl. by rewrite IH.
Qed.

(** A whitespace-only string is its own title. *)
Lemma title_blank (ud : UnicodeData) (n : str) :
  keeps_whitespace ud → Forall whitespace n → Str.title ud n = n.
Proof. intros. by apply do_title_blank. Qed.

Lemma do_title_ascii (ud : UnicodeData) (s rest : str) (i k : nat)
    (previous_is_cased : bool) (c : N) :
  Forall (λ c, (c < 128)%N) rest →
  rest !! k = Some c →
  Str.do_title ud s i previous_is_cased rest !! k
  = Some (if match k with
             | O => negb previous_is_cased
             | S j => word_start rest k
             end
          then to_upper c else to_lower c).
Proof.
  intros H. revert i k previous_is_cased.
  induction H as [|a rest Ha _ IH]; intros i k p Hk; [done|].
  apply N.ltb_lt in Ha. simpl.
  unfold Str.lower_ucs4, Str.to_title_full, Str.is_cased. rewrite Ha.
  destruct k as [|k]; simpl in Hk.
  - injection Hk as ->. by destruct p.
  - assert (∀ x y : N, ((if p then [x] else [y]) ++
              Str.do_title ud s (S i) (Str.ascii_upper a || Str.ascii_lower a)
                rest) !! S k
            = Str.do_title ud s (S i) (Str.ascii_upper a || Str.ascii_lower a)
                rest !! k) as -> by (intros; by destruct p).
    rewrite (IH _ _ _ Hk). destruct k as [|k]; reflexivity.
Qed.

Lemma do_title_ascii_length (ud : UnicodeData) (s rest : str) (i : nat)
    (previous_is_cased : bool) :
  Forall (λ c, (c < 128)%N) rest →
  length (Str.do_title ud s i previous_is_cased rest) = length rest.
Proof.
  intros H. revert i previous_is_cased.
  induction H as [|a rest Ha _ IH]; intros i p; [done|].
  apply N.ltb_lt in Ha. simpl.
  unfold Str.lower_ucs4, Str.to_title_full. rewrite Ha.
  rewrite length_app, IH. by destruct p.
Qed.

(** On an ASCII string [title] keeps the length, puts the code point at
    the start of each word in upper case and every other one in lower
    case. *)
Lemma title_ascii (ud : UnicodeData) (n : str) :
  Forall (λ c, (c < 128)%N) n →
  length (Str.title ud n) = length n
  ∧ ∀ i c, n !! i = Some c →
           Str.title ud n !! i
           = Some (if word_start n i then to_upper c else to_lower c).
Proof.
  intros H. split; [by apply do_title_ascii_length|].
  intros i c Hi. unfold Str.title.
  rewrite (do_title_ascii ud n n 0 i false c H Hi). by destruct i.
Qed.

(** ** The [Greeter] *)

Lemma greeter_greet_result (ud : UnicodeData) (self : Greeter.t)
    (name : value) (greeting : option value) :
  match fst (Greeter.greet ud self name greeting) with
  | Ok m => snd (Greeter.greet ud self name greeting)
            = Greeter.append_history self m
  | Raise _ => snd (Greeter.greet ud self name greeting) = self
  end.
Proof.
  unfold Greeter.greet.
  match goal with |- context [greet ?a ?b] => destruct (greet a b) end;
    reflexivity.
Qed.

Lemma greeter_greet_insensitive (ud : UnicodeData) (self : Greeter.t)
    (n g : str) :
  Greeter.case_sensitive self = false →
  fst (Greeter.greet ud self (VStr n) (Some (VStr g)))
  = greet (VStr (Str.title ud n)) (Some (VStr g))
  ∧ fst (Greeter.greet ud self (VStr n) None)
    = greet (VStr (Str.title ud n)) (Some (VStr (Greeter.default_greeting self))).
Proof.
  intros H. unfold Greeter.greet. rewrite H. cbn [negb arg_or].
  split;
    match goal with |- context [greet ?a ?b] => destruct (greet a b) end;
    reflexivity.
Qed.

Lemma greeter_greet_sensitive (ud : UnicodeData) (self : Greeter.t)
    (n g : str) :
  Greeter.case_sensitive self = true →
  fst (Greeter.greet ud self (VStr n) (Some (VStr g)))
  = greet (VStr n) (Some (VStr g))
  ∧ fst (Greeter.greet ud self (VStr n) None)
    = greet (VStr n) (Some (VStr (Greeter.default_greeting self))).
Proof.
  intros H. unfold Greeter.greet. rewrite H. cbn [negb arg_or].
  split;
    match goal with |- context [greet ?a ?b] => destruct (greet a b) end;
    reflexivity.
Qed.

Lemma init_ok (d : str) (cs : option bool) (self : Greeter.t) :
  Greeter.__init__ (Some (VStr d)) cs = Ok self →
  Greeter.default_greeting self = Str.strip d
  ∧ Greeter.case_sensitive self = arg_or true cs
  ∧ Greeter.greeting_history self = []
  ∧ has_text d.
Proof.
  unfold Greeter.__init__. simpl.
  destruct (Str.truthy (Str.strip d)) eqn:E; simpl; [|discriminate].
  intros [= <-]. simpl. repeat split. by apply strip_truthy.
Qed.

(** C7: a [Greeter] whose [case_sensitive] is false title-cases a text
    name before [greet] validates and formats it. The greeting left out is
    the stored default, which the constructor stored stripped; ["bob"] gives
    ["<default>, Bob!"]; an empty or whitespace-only name is its own title
    and raises the [ValueError] of [greet]; and on an ASCII name the title
    has an upper-case code point at each word start and lower-case ones
    elsewhere, whatever the case in the name. *)
Theorem C7_case_insensitive_greet (ud : UnicodeData) (self : Greeter.t)
    (n : str) :
  Greeter.case_sensitive self = false →
  keeps_whitespace ud →
  (∀ g, fst (Greeter.greet ud self (VStr n) (Some (VStr g)))
        = greet (VStr (Str.title ud n)) (Some (VStr g)))
  ∧ fst (Greeter.greet ud self (VStr n) None)
    = greet (VStr (Str.title ud n)) (Some (VStr (Greeter.default_greeting self)))
  ∧ (has_text (Str.title ud n) →
     fst (Greeter.greet ud self (VStr n) None)
     = Ok (Greeter.default_greeting self ++ lit ", "
             ++ Str.strip (Str.title ud n) ++ lit "!"))
  ∧ fst (Greeter.greet ud self (VStr (lit "bob")) None)
    = Ok (Greeter.default_greeting self ++ lit ", Bob!")
  ∧ (Forall whitespace n →
     (∀ g, fst (Greeter.greet ud self (VStr n) (Some (VStr g)))
           = Raise (ValueError "Name cannot be empty or whitespace only"))
     ∧ fst (Greeter.greet ud self (VStr n) None)
       = Raise (ValueError "Name cannot be empty or whitespace only")
     ∧ greet (VStr n) None
       = Raise (ValueError "Name cannot be empty or whitespace only"))
  ∧ (Forall (λ c, (c < 128)%N) n →
     length (Str.title ud n) = length n
     ∧ ∀ i c, n !! i = Some c →
              Str.title ud n !! i
              = Some (if word_start n i then to_upper c else to_lower c))
  ∧ (∀ d cs self',
       Greeter.__init__ (Some (VStr d)) cs = Ok self' →
       Greeter.default_greeting self' = Str.strip d).
Proof.
  intros Hcs Hud.
  split; [|split; [|split; [|split; [|split; [|split]]]]].
  - intros g. by apply greeter_greet_insensitive.
  - by apply (greeter_greet_insensitive ud self n []).
  - intros H. rewrite (proj2 (greeter_greet_insensitive ud self n [] Hcs)).
    by apply greet_text.
  - rewrite (proj2 (greeter_greet_insensitive ud self (lit "bob") [] Hcs)).
    reflexivity.
  - intros Hn. split; [|split].
    + intros g. rewrite (proj1 (greeter_greet_insensitive ud self n g Hcs)).
      rewrite title_blank by done. by apply greet_blank.
    + rewrite (proj2 (greeter_greet_insensitive ud self n [] Hcs)).
      rewrite title_blank by done. by apply greet_blank.
    + exact (greet_blank n (lit "Hello") Hn).
  - by apply title_ascii.
  - intros d cs self' H. by apply init_ok in H as [H _].
Qed.

Lemma ascii_only_keeps_whitespace : keeps_whitespace ascii_only.
Proof. intros c _ _. by split. Qed.

Lemma C7_case_insensitive_greet_witness :
  fst (Greeter.greet ascii_only
         {| Greeter.default_greeting := lit "Hi";
            Greeter.case_sensitive := false;
            Greeter.greeting_history := [] |}
         (VStr (lit "ada LOVELACE")) None)
  = Ok (lit "Hi, Ada Lovelace!").
Proof.
  refine (proj1 (proj2 (proj2 (C7_case_insensitive_greet ascii_only
            {| Greeter.default_greeting := lit "Hi";
               Greeter.case_sensitive := false;
               Greeter.greeting_history := [] |}
            (lit "ada LOVELACE") eq_refl ascii_only_keeps_whitespace))) _).
  apply has_textb_spec. reflexivity.
Defined.

(** C8: [clear_history] empties the history and keeps the default greeting
    and the case flag; clearing twice is clearing once; and
    [get_statistics] of the cleared greeter reports no greeting, no name and
    no most common greeting. *)
Theorem C8_clear_history (self : Greeter.t) :
  Greeter.greeting_history (Greeter.clear_history self) = []
  ∧ Greeter.default_greeting (Greeter.clear_history self)
    = Greeter.default_greeting self
  ∧ Greeter.case_sensitive (Greeter.clear_history self)
    = Greeter.case_sensitive self
  ∧ Greeter.clear_history (Greeter.clear_history self)
    = Greeter.clear_history self
  ∧ Greeter.get_statistics (Greeter.clear_history self)
    = Ok {| total_greetings := 0;
            unique_names := 0;
            most_common_greeting := None |}.
Proof. repeat split. Qed.

(** C9: a call of [Greeter.greet] that raises leaves the greeter as it
    was, history included; a call that returns a message appends that
    message, and nothing else, to the history. *)
Theorem C9_greet_failure_keeps_state (ud : UnicodeData) (self : Greeter.t)
    (name : value) (greeting : option value) :
  (∀ e, fst (Greeter.greet ud self name greeting) = Raise e →
        snd (Greeter.greet ud self name greeting) = self)
  ∧ (∀ m, fst (Greeter.greet ud self name greeting) = Ok m →
          Greeter.greeting_history (snd (Greeter.greet ud self name greeting))
          = Greeter.greeting_history self ++ [m]
          ∧ length (Greeter.greeting_history
                      (snd (Greeter.greet ud self name greeting)))
            = S (length (Greeter.greeting_history self))
          ∧ Greeter.default_greeting (snd (Greeter.greet ud self name greeting))
            = Greeter.default_greeting self
          ∧ Greeter.case_sensitive (snd (Greeter.greet ud self name greeting))
            = Greeter.case_sensitive self).
Proof.
  pose proof (greeter_greet_result ud self name greeting) as H.
  split.
  - intros e He. by rewrite He in H.
  - intros m Hm. rewrite Hm in H. rewrite H. simpl.
    repeat split. rewrite length_app. simpl. lia.
Qed.

Lemma C9_greet_failure_keeps_state_witness :
  snd (Greeter.greet ascii_only hi_greeter (VStr (lit "  ")) None) = hi_greeter
  ∧ snd (Greeter.greet ascii_only hi_greeter (VStr (lit "Bob"))
           (Some (VInt 123)))
    = hi_greeter
  ∧ Greeter.greeting_history
      (snd (Greeter.greet ascii_only hi_greeter (VStr (lit "bob")) None))
    = Greeter.greeting_history hi_greeter ++ [lit "Hi, Bob!"].
Proof.
  split; [|split].
  - apply (proj1 (C9_greet_failure_keeps_state ascii_only hi_greeter
                    (VStr (lit "  ")) None)
             (ValueError "Name cannot be empty or whitespace only")).
    reflexivity.
  - apply (proj1 (C9_greet_failure_keeps_state ascii_only hi_greeter
                    (VStr (lit "Bob")) (Some (VInt 123)))
             (TypeError "Greeting must be a string")).
    reflexivity.
  - apply (proj2 (C9_greet_failure_keeps_state ascii_only hi_greeter
                    (VStr (lit "bob")) None) (lit "Hi, Bob!")).
    reflexivity.
Defined.

Lemma init_blank (g : str) (cs : option bool) :
  Forall whitespace g →
  Greeter.__init__ (Some (VStr g)) cs
  = Raise (ValueError "Default greeting cannot be empty").
Proof.
  intros H. apply strip_nil in H. unfold Greeter.__init__. simpl.
  by rewrite H.
Qed.

(** C10: an empty or whitespace-only greeting is accepted as it is by
    [greet], by both batch formatters and as the explicit greeting of
    [Greeter.greet], for every valid name; only the constructor of
    [Greeter] refuses it, with a [ValueError]. *)
Theorem C10_blank_greeting (ud : UnicodeData) (rt : Runtime)
    (self : Greeter.t) (n g : str) (cs : option bool) :
  has_text n → Forall whitespace g →
  greet (VStr n) (Some (VStr [])) = Ok (lit ", " ++ Str.strip n ++ lit "!")
  ∧ greet (VStr n) (Some (VStr g))
    = Ok (g ++ lit ", " ++ Str.strip n ++ lit "!")
  ∧ greet_multiple (VList [VStr n]) (Some (VStr g)) = Ok [message g n]
  ∧ greet_multiple_safe rt (VList [VStr n]) (Some (VStr g))
    = Ok [message g n]
  ∧ (Greeter.case_sensitive self = true →
     Greeter.greet ud self (VStr n) (Some (VStr g))
     = (Ok (message g n), Greeter.append_history self (message g n)))
  ∧ fst (Greeter.greet ud self (VStr n) (Some (VStr g)))
    = greet (VStr (if Greeter.case_sensitive self then n else Str.title ud n))
        (Some (VStr g))
  ∧ Greeter.__init__ (Some (VStr g)) cs
    = Raise (ValueError "Default greeting cannot be empty")
  ∧ Greeter.__init__ (Some (VStr [])) cs
    = Raise (ValueError "Default greeting cannot be empty").
Proof.
  intros Hn Hg.
  split; [|split; [|split; [|split; [|split; [|split; [|split]]]]]].
  - by apply (greet_text n []).
  - by apply greet_text.
  - unfold greet_multiple, greet_multiple_loop.
    cbn [arg_or isinstance_str negb]. by rewrite (greet_text n g Hn).
  - assert (Forall (passable rt) [VStr n]) as Hp.
    { constructor; [|constructor]. left. by apply has_textb_spec. }
    rewrite (proj1 (safe_batch_ok rt [VStr n] g Hp)). simpl.
    apply has_textb_spec in Hn. by rewrite Hn.
  - intros Hcs.
    pose proof (greeter_greet_result ud self (VStr n) (Some (VStr g))) as H.
    pose proof (proj1 (greeter_greet_sensitive ud self n g Hcs)) as Hf.
    rewrite greet_text in Hf by done. rewrite Hf in H.
    destruct (Greeter.greet ud self (VStr n) (Some (VStr g))) as [r self'].
    simpl in *. by subst.
  - destruct (Greeter.case_sensitive self) eqn:Hcs.
    + by apply greeter_greet_sensitive.
    + by apply greeter_greet_insensitive.
  - by apply init_blank.
  - by apply init_blank.
Qed.

Lemma C10_blank_greeting_witness :
  greet (VStr (lit "Ada")) (Some (VStr [])) = Ok (lit ", Ada!")
  ∧ Greeter.__init__ (Some (VStr (lit "  "))) None
    = Raise (ValueError "Default greeting cannot be empty").
Proof.
  assert (has_text (lit "Ada")) as Hn by (apply has_textb_spec; reflexivity).
  assert (Forall whitespace (lit "  ")) as Hg by (by repeat constructor).
  pose proof (C10_blank_greeting ascii_only default_runtime hi_greeter
                (lit "Ada") (lit "  ") None Hn Hg) as H.
  split; [apply H | apply H].
Defined.

(** ** [split] and [rstrip] *)

Lemma cut_unfold (sep s : str) :
  cut sep s
  = if Str.starts_with sep s then Some ([], drop (length sep) s)
    else
      match s with
      | [] => None
      | c :: s' =>
          match cut sep s' with
          | Some (a, b) => Some (c :: a, b)
          | None => None
          end
      end.
Proof. by destruct s. Qed.

(** What [cut] finds is an occurrence of the separator. *)
Lemma cut_Some (sep s a b : str) :
  cut sep s = Some (a, b) → s = a ++ sep ++ b.
Proof.
  assert (∀ p t, Str.starts_with p t = true → t = p ++ drop (length p) t) as Hp.
  { induction p as [|x p IH]; intros [|y t]; simpl; try done.
    intros [->%N.eqb_eq H]%andb_true_iff. f_equal. by apply IH. }
  revert a. induction s as [|c s IH]; intros a; rewrite cut_unfold.
  - destruct (Str.starts_with sep []) eqn:E; [|discriminate].
    intros [= <- <-]. by apply Hp.
  - destruct (Str.starts_with sep (c :: s)) eqn:E.
    + intros [= <- <-]. by apply Hp.
    + destruct (cut sep s) as [[a' b']|]; [|discriminate].
      intros [= <- <-]. simpl. f_equal. by apply IH.
Qed.

Lemma split_scan_skip (sep s : str) (k : nat) :
  Str.split_scan sep k s = Str.split_scan sep 0 (drop k s).
Proof.
  revert k. induction s as [|c s IH]; intros [|k]; try reflexivity.
  simpl. apply IH.
Qed.

(** [split] as a search: the text before the first separator, then the
    fields of the text after it. *)
Lemma split_scan_cut (sep s : str) :
  sep ≠ [] →
  Str.split_scan sep 0 s
  = match cut sep s with
    | Some (a, b) => a :: Str.split_scan sep 0 b
    | None => [s]
    end.
Proof.
  intros Hsep. destruct sep as [|x sep]; [done|]. clear Hsep.
  induction s as [|c s IH]; [reflexivity|].
  rewrite cut_unfold. cbn [Str.split_scan].
  destruct (Str.starts_with (x :: sep) (c :: s)).
  - rewrite split_scan_skip. simpl. by rewrite Nat.sub_0_r.
  - rewrite IH. by destruct (cut (x :: sep) s) as [[a b]|].
Qed.

Lemma greeting_word_spec (msg : str) :
  Greeter.greeting_word msg = Ok (before_comma msg).
Proof.
  unfold Greeter.greeting_word. change (lit ",") with [44%N]. simpl.
  enough (∃ rest, Str.split_scan [44%N] 0 msg = before_comma msg :: rest)
    as [rest ->] by reflexivity.
  induction msg as [|c msg [rest IH]]; [by exists []|].
  cbn [Str.split_scan Str.starts_with before_comma].
  rewrite andb_true_r, N.eqb_sym, IH.
  destruct (c =? 44)%N; simpl; eauto.
Qed.

Lemma cut_comma_space_bang (n : str) :
  cut [44%N; 32%N] n = None → cut [44%N; 32%N] (n ++ [33%N]) = None.
Proof.
  induction n as [|a n IH]; [reflexivity|].
  rewrite (cut_unfold _ (a :: n)), (cut_unfold _ ((a :: n) ++ _)).
  assert (Str.starts_with [44%N; 32%N] ((a :: n) ++ [33%N])
          = Str.starts_with [44%N; 32%N] (a :: n)) as ->.
  { destruct n as [|b n]; simpl; [|reflexivity].
    by rewrite andb_false_r. }
  destruct (Str.starts_with [44%N; 32%N] (a :: n)); [discriminate|].
  simpl. destruct (cut [44%N; 32%N] n) as [[p q]|]; [discriminate|].
  intros _. by rewrite IH.
Qed.

Lemma rstrip_bang (n : str) :
  last n ≠ Some 33%N → Str.rstrip (n ++ [33%N]) [33%N] = n.
Proof.
  intros H. unfold Str.rstrip, Str.rstrip_by.
  rewrite rev_app_distr. simpl.
  rewrite <- (rev_involutive n), last_rev_head in H.
  rewrite <- (rev_involutive n) at 2.
  destruct (rev n) as [|c r]; [reflexivity|]. simpl in *.
  rewrite bool_decide_eq_false_2; [reflexivity|].
  intros ->%list_elem_of_singleton. by apply H.
Qed.

(** On a message whose name part has no [", "] and no ["!"] at its end,
    the parsing of [get_statistics] reads the name part. *)
Lemma name_of_spec (msg n : str) :
  between_comma_and_bang msg = Some n →
  cut (lit ", ") n = None →
  last n ≠ Some 33%N →
  Greeter.name_of msg = Ok n.
Proof.
  unfold between_comma_and_bang, Greeter.name_of.
  change (lit ", ") with [44%N; 32%N]. change (lit "!") with [33%N].
  destruct (cut [44%N; 32%N] msg) as [[w rest]|] eqn:Ecut; [|discriminate].
  destruct (rev rest) as [|c r] eqn:Erev; [discriminate|].
  destruct (c =? 33)%N eqn:Ec; [|discriminate]. apply N.eqb_eq in Ec as ->.
  intros [= <-] Hn Hlast.
  assert (rest = rev r ++ [33%N]) as ->.
  { rewrite <- (rev_involutive rest), Erev. reflexivity. }
  unfold Str.split. rewrite split_scan_cut by done. rewrite Ecut.
  rewrite split_scan_cut by done. rewrite (cut_comma_space_bang _ Hn).
  cbn [bind getitem lookup list_lookup]. simpl. by rewrite rstrip_bang.
Qed.

Lemma mapM_Forall2 {A B} (f : A → result B) (l : list A) (l' : list B) :
  Forall2 (λ a b, f a = Ok b) l l' → mapM f l = Ok l'.
Proof.
  induction 1 as [|a b l l' Hab _ IH]; simpl; [reflexivity|].
  by rewrite Hab, IH.
Qed.

Lemma mapM_total {A B} (f : A → result B) (g : A → B) (l : list A) :
  (∀ a, f a = Ok (g a)) → mapM f l = Ok (map g l).
Proof.
  intros H. induction l as [|a l IH]; simpl; [reflexivity|].
  by rewrite H, IH.
Qed.

(** ** [Counter] *)

Lemma count_of_snoc (w x : str) (l : list str) :
  count_of w (l ++ [x]) = count_of w l + (if decide (x = w) then 1 else 0).
Proof.
  unfold count_of. rewrite filter_app, length_app. f_equal.
  rewrite filter_cons. by destruct (decide (x = w)).
Qed.

Lemma count_of_absent (w : str) (l : list str) : w ∉ l → count_of w l = 0.
Proof.
  unfold count_of. induction l as [|x l IH]; intros H; [reflexivity|].
  apply not_elem_of_cons in H as [Hne Hl].
  rewrite filter_cons_False by congruence. by apply IH.
Qed.

Lemma incr_cases (k : str) (c : Counter.t) :
  ((k ∉ c.*1) ∧ Counter.incr k c = c ++ [(k, 1)])
  ∨ ∃ d1 n d2,
      c = d1 ++ (k, n) :: d2 ∧ (k ∉ d1.*1)
      ∧ Counter.incr k c = d1 ++ (k, S n) :: d2.
Proof.
  induction c as [|[k' n] c IH]; simpl.
  - left. split; [apply not_elem_of_nil | reflexivity].
  - destruct (decide (k = k')) as [<-|Hne].
    + right. exists [], n, c. repeat split. apply not_elem_of_nil.
    + destruct IH as [[Hk ->] | (d1 & m & d2 & -> & Hk & ->)].
      * left. split; [|reflexivity]. by apply not_elem_of_cons.
      * right. exists ((k', n) :: d1), m, d2. repeat split.
        simpl. by apply not_elem_of_cons.
Qed.

Lemma of_list_snoc (l : list str) (x : str) :
  Counter.of_list (l ++ [x]) = Counter.incr x (Counter.of_list l).
Proof. unfold Counter.of_list. by rewrite fold_left_app. Qed.

Lemma counts_incr (l : list str) (c : Counter.t) (x : str) :
  counts l c → counts (l ++ [x]) (Counter.incr x c).
Proof.
  intros (Hnd & Hcount & Hkeys & Horder).
  destruct (incr_cases x c) as [[Hx ->] | (d1 & n & d2 & -> & Hd1 & ->)].
  - assert (x ∉ l) as Hxl by (intros H; by apply Hx, Hkeys).
    unfold counts. rewrite fmap_app. simpl. repeat split.
    + apply NoDup_app. repeat split; [exact Hnd | | apply NoDup_singleton].
      intros y Hy ->%list_elem_of_singleton. by apply Hx.
    + intros k n [Hin | [= -> ->]%list_elem_of_singleton]%elem_of_app.
      * rewrite count_of_snoc, (Hcount k n Hin).
        destruct (decide (x = k)) as [->|]; [|lia].
        destruct Hx. apply list_elem_of_fmap. by exists (k, n).
      * rewrite count_of_snoc, (count_of_absent _ _ Hxl).
        by rewrite decide_True.
    + intros y [Hy | Hy]%elem_of_app; apply elem_of_app; [left | by right].
      by apply Hkeys.
    + intros K1 k K2 HK. destruct K2 as [|z K2 _] using rev_ind.
      * apply app_inj_tail in HK as [HK ->]. exists l, []. split; [done|].
        intros y Hy. rewrite <- HK. by apply Hkeys.
      * rewrite app_comm_cons, app_assoc in HK.
        apply app_inj_tail in HK as [HK ->].
        destruct (Horder K1 k K2 HK) as (pre & post & -> & Hpre).
        exists pre, (post ++ [z]). split; [|exact Hpre].
        by rewrite <- app_assoc.
  - unfold counts. rewrite !fmap_app in *. simpl in *.
    apply NoDup_app in Hnd as Hnd'. destruct Hnd' as (_ & Hd12 & Hd2).
    apply NoDup_cons in Hd2 as [Hd2 _].
    repeat split.
    + exact Hnd.
    + intros k m [Hin | [[= -> ->] | Hin]%elem_of_cons]%elem_of_app.
      * rewrite count_of_snoc, (Hcount k m) by set_solver.
        destruct (decide (x = k)) as [->|]; [|lia].
        destruct Hd1. apply list_elem_of_fmap. by exists (k, m).
      * rewrite count_of_snoc, <- (Hcount x n) by set_solver.
        rewrite decide_True by done. lia.
      * rewrite count_of_snoc, (Hcount k m) by set_solver.
        destruct (decide (x = k)) as [->|]; [|lia].
        destruct Hd2. apply list_elem_of_fmap. by exists (k, m).
    + intros y [Hy | ->%list_elem_of_singleton]%elem_of_app.
      * by apply Hkeys.
      * set_solver.
    + intros K1 k K2 HK.
      destruct (Horder K1 k K2 HK) as (pre & post & -> & Hpre).
      exists pre, (post ++ [x]). split; [|exact Hpre].
      by rewrite <- app_assoc.
Qed.

Lemma counts_of_list (l : list str) : counts l (Counter.of_list l).
Proof.
  induction l as [|x l IH] using rev_ind.
  - repeat split.
    + constructor.
    + intros k n H. by apply elem_of_nil in H.
    + intros x H. by apply elem_of_nil in H.
    + intros K1 k K2 H. by destruct K1.
  - rewrite of_list_snoc. by apply counts_incr.
Qed.

Lemma max_item_ge (best : str * nat) (items : Counter.t) :
  snd best ≤ snd (Counter.max_item best items).
Proof.
  revert best. induction items as [|item items IH]; intros best; simpl.
  - lia.
  - etrans; [|apply IH].
    destruct (snd best <? snd item) eqn:E; [|lia].
    apply Nat.ltb_lt in E. lia.
Qed.

(** [max] returns the first of the items with the greatest count. *)
Lemma max_item_first (best : str * nat) (items : Counter.t) :
  ∃ c1 c2,
    best :: items = c1 ++ Counter.max_item best items :: c2
    ∧ (∀ y, y ∈ c1 → snd y < snd (Counter.max_item best items))
    ∧ (∀ y, y ∈ c2 → snd y ≤ snd (Counter.max_item best items)).
Proof.
  revert best. induction items as [|item items IH]; intros best; simpl.
  - exists [], []. repeat split; intros y H; by apply elem_of_nil in H.
  - destruct (snd best <? snd item) eqn:E.
    + apply Nat.ltb_lt in E.
      pose proof (max_item_ge item items) as Hge.
      destruct (IH item) as (c1 & c2 & Heq & H1 & H2).
      remember (Counter.max_item item items) as r eqn:Hr. clear Hr.
      exists (best :: c1), c2. rewrite Heq. repeat split; [|exact H2].
      intros y [-> | Hy]%elem_of_cons; [lia | by apply H1].
    + apply Nat.ltb_ge in E.
      destruct (IH best) as (c1 & c2 & Heq & H1 & H2).
      remember (Counter.max_item best items) as r eqn:Hr. clear Hr.
      destruct c1 as [|b c1]; simpl in Heq; injection Heq as Hb Hitems.
      * subst r items. exists [], (item :: c2). repeat split.
        -- intros y H. by apply elem_of_nil in H.
        -- intros y [-> | Hy]%elem_of_cons; [exact E | by apply H2].
      * subst b items. exists (best :: item :: c1), c2.
        repeat split; [|exact H2].
        assert (snd best < snd r) as Hlt by (apply H1; left).
        intros y [-> | [-> | Hy]%elem_of_cons]%elem_of_cons;
          [exact Hlt | lia | apply H1; by right].
Qed.

(** [most_common(1)] of the counter of a non-empty list is the most
    frequent word, the first one of the list at a tie. *)
Lemma most_common_spec (l : list str) :
  l ≠ [] →
  ∃ w n,
    Counter.most_common_1 (Counter.of_list l) = [(w, n)]
    ∧ first_most_frequent w l.
Proof.
  intros Hl. destruct (counts_of_list l) as (Hnd & Hcount & Hkeys & Horder).
  destruct (Counter.of_list l) as [|item items] eqn:Ec.
  - destruct l as [|x l]; [done|].
    specialize (Hkeys x (list_elem_of_here _ _)). by apply elem_of_nil in Hkeys.
  - destruct (max_item_first item items) as (c1 & c2 & Heq & H1 & H2).
    destruct (Counter.max_item item items) as [w n] eqn:Em.
    exists w, n. split; [simpl; by rewrite Em|].
    rewrite Heq in *. clear Heq Ec Em.
    assert (n = count_of w l) as Hn by (apply Hcount; set_solver).
    destruct (Horder c1.*1 w c2.*1) as (pre & post & Hsplit & Hpre).
    { by rewrite fmap_app. }
    exists pre, post. split; [exact Hsplit|]. split.
    + intros x Hx. apply Hpre, list_elem_of_fmap in Hx as ([k m] & -> & Hx).
      simpl. rewrite <- Hn, <- (Hcount k m) by set_solver.
      exact (H1 _ Hx).
    + intros x Hx. apply Hkeys, list_elem_of_fmap in Hx as ([k m] & -> & Hx).
      simpl. rewrite <- Hn, <- (Hcount k m Hx).
      apply elem_of_app in Hx as [Hx | [[= -> ->] | Hx]%elem_of_cons].
      * specialize (H1 _ Hx). simpl in H1. lia.
      * lia.
      * exact (H2 _ Hx).
Qed.

(** ** [get_statistics] *)

Lemma plain_names (history : list str) :
  Forall plain_name_part history →
  Forall2 (λ msg n, Greeter.name_of msg = Ok n) history
    (omap between_comma_and_bang history).
Proof.
  induction 1 as [|msg history (n & Hn & Hcut & Hlast) _ IH]; simpl.
  - constructor.
  - rewrite Hn. constructor; [|exact IH]. by apply name_of_spec.
Qed.

(** [get_statistics] on a non-empty history, from the two lists it
    parses out of the messages. *)
Lemma get_statistics_parsed (self : Greeter.t) (words names : list str) :
  Greeter.greeting_history self ≠ [] →
  mapM Greeter.greeting_word (Greeter.greeting_history self) = Ok words →
  mapM Greeter.name_of (Greeter.greeting_history self) = Ok names →
  ∃ w,
    Greeter.get_statistics self
    = Ok {| total_greetings := length (Greeter.greeting_history self);
            unique_names := size (list_to_set (C := gset str) names);
            most_common_greeting := Some w |}
    ∧ first_most_frequent w words.
Proof.
  intros Hne Hwords Hnames. unfold Greeter.get_statistics.
  rewrite Hwords, Hnames.
  destruct (most_common_spec words) as (w & n & Hw & Hfirst).
  { intros ->.
    destruct (Greeter.greeting_history self) as [|msg history]; [done|].
    simpl in Hwords.
    destruct (Greeter.greeting_word msg); [|discriminate].
    simpl in Hwords.
    destruct (mapM Greeter.greeting_word history); discriminate. }
  exists w. split; [|exact Hfirst].
  destruct (Greeter.greeting_history self); [done|].
  cbn [length Nat.eqb bind]. rewrite Hw. reflexivity.
Qed.

Lemma cut_comma_space_first (g t : str) :
  cut [44%N; 32%N] g = None →
  cut [44%N; 32%N] (g ++ 44%N :: 32%N :: t) = Some (g, t).
Proof.
  induction g as [|a g IH]; [reflexivity|].
  rewrite (cut_unfold _ (a :: g)), (cut_unfold _ ((a :: g) ++ _)).
  assert (Str.starts_with [44%N; 32%N] ((a :: g) ++ 44%N :: 32%N :: t)
          = Str.starts_with [44%N; 32%N] (a :: g)) as ->.
  { destruct g as [|b g]; simpl; [|reflexivity]. by rewrite andb_false_r. }
  destruct (Str.starts_with [44%N; 32%N] (a :: g)); [discriminate|].
  simpl. destruct (cut [44%N; 32%N] g) as [[p q]|]; [discriminate|].
  intros _. by rewrite IH.
Qed.

Lemma before_comma_app (g t : str) :
  before_comma (g ++ 44%N :: t) = before_comma g.
Proof.
  induction g as [|a g IH]; simpl; [reflexivity|]. by rewrite IH.
Qed.

(** The message of a plain call has a plain name part: the trimmed name. *)
Lemma message_plain (g n : str) :
  cut (lit ", ") g = None →
  cut (lit ", ") (Str.strip n) = None →
  last (Str.strip n) ≠ Some 33%N →
  between_comma_and_bang (message g n) = Some (Str.strip n)
  ∧ plain_name_part (message g n)
  ∧ before_comma (message g n) = before_comma g.
Proof.
  intros Hg Hn Hlast.
  assert (between_comma_and_bang (message g n) = Some (Str.strip n)) as H.
  { unfold between_comma_and_bang, message.
    change (lit ", ") with [44%N; 32%N] in *. change (lit "!") with [33%N].
    cbn [app].
    rewrite (cut_comma_space_first g _ Hg), rev_app_distr. simpl.
    by rewrite rev_involutive. }
  split; [exact H|]. split.
  - by exists (Str.strip n).
  - unfold message. change (lit ", ") with [44%N; 32%N].
    apply before_comma_app.
Qed.

Lemma greet_calls_history (self : Greeter.t) (calls : list (str * str)) :
  Greeter.case_sensitive self = true →
  Forall (λ call, has_text (fst call)) calls →
  Greeter.greeting_history (greet_calls self calls)
  = Greeter.greeting_history self
    ++ map (λ call, message (snd call) (fst call)) calls.
Proof.
  intros Hcs H. revert self Hcs.
  induction H as [|[n g] calls Hn _ IH]; intros self Hcs; simpl.
  - by rewrite app_nil_r.
  - pose proof (greeter_greet_result ascii_only self (VStr n) (Some (VStr g)))
      as Hr.
    rewrite (proj1 (greeter_greet_sensitive ascii_only self n g Hcs)) in Hr.
    rewrite (greet_text n g Hn) in Hr.
    unfold greet_calls in *. simpl. rewrite Hr, IH by done. simpl.
    by rewrite <- app_assoc.
Qed.

(** X11: the statistics of a new greeter after plain calls: the number
    of calls, the number of distinct trimmed names, and the most frequent
    greeting word, the first one used at a tie. *)
Lemma statistics_after_plain_calls (calls : list (str * str)) :
  calls ≠ [] →
  Forall plain_call calls →
  ∃ w,
    Greeter.get_statistics (greeter_after calls)
    = Ok {| total_greetings := length calls;
            unique_names :=
              size (list_to_set (C := gset str)
                      (map (λ call, Str.strip (fst call)) calls));
            most_common_greeting := Some w |}
    ∧ first_most_frequent w (map (λ call, before_comma (snd call)) calls).
Proof.
  intros Hne Hplain.
  assert (Greeter.greeting_history (greeter_after calls)
          = map (λ call, message (snd call) (fst call)) calls) as Hh.
  { unfold greeter_after. rewrite greet_calls_history; [reflexivity..|].
    eapply Forall_impl; [exact Hplain|]. by intros call [H _]. }
  destruct (get_statistics_parsed (greeter_after calls)
              (map before_comma (Greeter.greeting_history (greeter_after calls)))
              (omap between_comma_and_bang
                 (Greeter.greeting_history (greeter_after calls))))
    as (w & Hw & Hfirst).
  { rewrite Hh. by destruct calls. }
  { apply mapM_total, greeting_word_spec. }
  { apply mapM_Forall2, plain_names. rewrite Hh. apply Forall_map.
    eapply Forall_impl; [exact Hplain|].
    intros [n g] (_ & Hg & Hn & Hlast). by apply message_plain. }
  assert (omap between_comma_and_bang
            (map (λ call, message (snd call) (fst call)) calls)
          = map (λ call, Str.strip (fst call)) calls) as Hnames.
  { clear -Hplain.
    induction Hplain as [|[n g] calls (_ & Hg & Hn & Hl) _ IH];
      simpl; [reflexivity|].
    rewrite (proj1 (message_plain g n Hg Hn Hl)). f_equal. exact IH. }
  exists w. rewrite Hw.
  rewrite Hh, Hnames, length_map. split; [reflexivity|].
  rewrite Hh, map_map in Hfirst.
  erewrite map_ext_Forall; [exact Hfirst|].
  eapply Forall_impl; [exact Hplain|].
  intros [n g] (_ & Hg & Hn & Hl). symmetry. by apply message_plain.
Qed.

(** C3, the claim as stated fails: after four calls of [greet], two of
    them with a name that holds [", "] and one with a name that ends with
    ["!"], [get_statistics] counts 3 names where the texts between the first
    [", "] and the trailing ["!"] of the messages are 4 different ones; and
    the greeting words are A, B, B, A, of which B reaches the highest count
    first while [get_statistics] answers A. *)
Lemma C3_names_with_separators :
  Greeter.greeting_history
    (greeter_after [(lit "x, y", lit "A"); (lit "x, z", lit "B");
                    (lit "q", lit "B"); (lit "r!", lit "A")])
  = [lit "A, x, y!"; lit "B, x, z!"; lit "B, q!"; lit "A, r!!"]
  ∧ Greeter.get_statistics
      (greeter_after [(lit "x, y", lit "A"); (lit "x, z", lit "B");
                      (lit "q", lit "B"); (lit "r!", lit "A")])
    = Ok {| total_greetings := 4;
            unique_names := 3;
            most_common_greeting := Some (lit "A") |}
  ∧ distinct_names [lit "A, x, y!"; lit "B, x, z!"; lit "B, q!"; lit "A, r!!"]
    = 4
  ∧ first_reaching_highest
      (map before_comma
         [lit "A, x, y!"; lit "B, x, z!"; lit "B, q!"; lit "A, r!!"])
    = Some (lit "B").
Proof. vm_compute. repeat split. Qed.

(** C3, amended: for a greeter with a non-empty history in which the name
    part of every message (the text between the first [", "] and the
    trailing ["!"]) holds no [", "] and does not end with ["!"],
    [get_statistics] returns the length of the history, the number of
    distinct name parts, and the most frequent of the texts before the
    first comma of the messages, a tie going to the text that occurs first
    in the history. *)
Theorem C3_statistics (self : Greeter.t) :
  Greeter.greeting_history self ≠ [] →
  Forall plain_name_part (Greeter.greeting_history self) →
  ∃ w,
    Greeter.get_statistics self
    = Ok {| total_greetings := length (Greeter.greeting_history self);
            unique_names := distinct_names (Greeter.greeting_history self);
            most_common_greeting := Some w |}
    ∧ first_most_frequent w (map before_comma (Greeter.greeting_history self)).
Proof.
  intros Hne Hplain. unfold distinct_names.
  apply get_statistics_parsed.
  - exact Hne.
  - apply mapM_total, greeting_word_spec.
  - apply mapM_Forall2, plain_names, Hplain.
Qed.


Lemma C3_statistics_witness :
  ∃ w,
    Greeter.get_statistics
      (greeter_after [(lit "World", lit "Hi"); (lit " Bob ", lit "Hi");
                      (lit "Bob", lit "Yo")])
    = Ok {| total_greetings := 3;
            unique_names := 2;
            most_common_greeting := Some w |}
    ∧ first_most_frequent w [lit "Hi"; lit "Hi"; lit "Yo"].
Proof.
  apply (C3_statistics
           (greeter_after [(lit "World", lit "Hi"); (lit " Bob ", lit "Hi");
                           (lit "Bob", lit "Yo")])).
  - discriminate.
  - repeat constructor.
    + exists (lit "World"). by vm_compute.
    + exists (lit "Bob"). by vm_compute.
    + exists (lit "Bob"). by vm_compute.
Defined.

(** * Further properties of the code *)

(** ** [greet] and the whitespace around a name *)

Lemma lstrip_by_prefix (p : N → bool) (l s : str) :
  Forall (λ c, p c = true) l → Str.lstrip_by p (l ++ s) = Str.lstrip_by p s.
Proof.
  induction 1 as [|c l Hc _ IH]; simpl; [reflexivity|]. by rewrite Hc.
Qed.

Lemma lstrip_by_app (p : N → bool) (s r : str) :
  Str.lstrip_by p s ≠ [] → Str.lstrip_by p (s ++ r) = Str.lstrip_by p s ++ r.
Proof.
  induction s as [|c s IH]; simpl; [done|].
  destruct (p c); [exact IH | reflexivity].
Qed.

Lemma rstrip_by_suffix (p : N → bool) (s r : str) :
  Forall (λ c, p c = true) r → Str.rstrip_by p (s ++ r) = Str.rstrip_by p s.
Proof.
  intros H. unfold Str.rstrip_by. rewrite rev_app_distr.
  rewrite lstrip_by_prefix; [reflexivity|]. by apply Forall_rev.
Qed.

(** Whitespace around a string does not change what [strip] returns. *)
Lemma strip_padding (l n r : str) :
  Forall whitespace l → Forall whitespace r →
  Str.strip (l ++ n ++ r) = Str.strip n.
Proof.
  intros Hl Hr. destruct (text_or_blank n) as [Hn|Hn].
  - unfold Str.strip. rewrite lstrip_by_prefix by exact Hl.
    rewrite lstrip_by_app.
    + by apply rstrip_by_suffix.
    + intros H. apply lstrip_by_nil in H. by apply not_has_text in H.
  - rewrite (proj2 (strip_nil n) Hn). apply strip_nil.
    apply Forall_app. split; [exact Hl|]. apply Forall_app. by split.
Qed.

Lemma strip_idempotent (s : str) : Str.strip (Str.strip s) = Str.strip s.
Proof.
  destruct (strip_spec s) as (l & r & Hs & Hl & Hr & _).
  rewrite Hs at 2. symmetry. by apply strip_padding.
Qed.

(** [greet] reads the name through [strip] only. *)
Lemma greet_by_strip (n1 n2 : str) (greeting : option value) :
  Str.strip n1 = Str.strip n2 →
  greet (VStr n1) greeting = greet (VStr n2) greeting.
Proof.
  intros H. unfold greet.
  destruct (arg_or (VStr (lit "Hello")) greeting); try reflexivity.
  assert (negb (Str.truthy n1) || negb (Str.truthy (Str.strip n1))
          = negb (Str.truthy n2) || negb (Str.truthy (Str.strip n2))) as ->.
  { apply eq_true_iff_eq. rewrite !greet_test. by rewrite H. }
  by rewrite H.
Qed.

(** X1: [greet] does not see the whitespace around a name: a name with
    whitespace put before and after it gives the result of the name itself,
    message or exception, whatever the greeting; so does the stripped
    name. *)
Theorem X1_greet_ignores_padding (l n r : str) (greeting : option value) :
  Forall whitespace l → Forall whitespace r →
  greet (VStr (l ++ n ++ r)) greeting = greet (VStr n) greeting
  ∧ greet (VStr (Str.strip n)) greeting = greet (VStr n) greeting.
Proof.
  intros Hl Hr. split; apply greet_by_strip.
  - by apply strip_padding.
  - apply strip_idempotent.
Qed.

Lemma X1_greet_ignores_padding_witness :
  greet (VStr (lit "  " ++ lit "Ada" ++ [9%N; 0x3000%N])) None
  = greet (VStr (lit "Ada")) None.
Proof.
  apply (X1_greet_ignores_padding (lit "  ") (lit "Ada") [9%N; 0x3000%N] None).
  - by repeat constructor.
  - by repeat constructor.
Defined.

(** ** The constructor *)

(** X2: [Greeter(default_greeting, case_sensitive)] raises a [TypeError]
    exactly when the default greeting is not a [str], a [ValueError]
    exactly when it is a blank [str], and otherwise returns a greeter with
    an empty history, the given case flag ([True] when left out) and the
    stripped greeting, which is not empty, has no whitespace at either end
    and is its own [strip]; without arguments the greeting is ["Hello"]. *)
Theorem X2_init (default_greeting : value) (d : str) (cs : option bool) :
  ((∃ msg, Greeter.__init__ (Some default_greeting) cs = Raise (TypeError msg))
   ↔ isinstance_str default_greeting = false)
  ∧ ((∃ msg, Greeter.__init__ (Some (VStr d)) cs = Raise (ValueError msg))
     ↔ Forall whitespace d)
  ∧ (has_text d →
     Greeter.__init__ (Some (VStr d)) cs
     = Ok {| Greeter.default_greeting := Str.strip d;
             Greeter.case_sensitive := arg_or true cs;
             Greeter.greeting_history := [] |}
     ∧ Str.strip d ≠ []
     ∧ Str.strip (Str.strip d) = Str.strip d
     ∧ (∀ c, head (Str.strip d) = Some c → ¬ whitespace c)
     ∧ (∀ c, last (Str.strip d) = Some c → ¬ whitespace c))
  ∧ Greeter.__init__ None cs
    = Ok {| Greeter.default_greeting := lit "Hello";
            Greeter.case_sensitive := arg_or true cs;
            Greeter.greeting_history := [] |}.
Proof.
  assert (has_text d →
          Greeter.__init__ (Some (VStr d)) cs
          = Ok {| Greeter.default_greeting := Str.strip d;
                  Greeter.case_sensitive := arg_or true cs;
                  Greeter.greeting_history := [] |}) as Hok.
  { intros Hd. apply strip_truthy in Hd. unfold Greeter.__init__. simpl.
    by rewrite Hd. }
  split; [|split; [|split]].
  - split.
    + intros (msg & H). destruct default_greeting as [| | |d'| |]; try done.
      destruct (text_or_blank d') as [Hd|Hd].
      * unfold Greeter.__init__ in H. simpl in H.
        apply strip_truthy in Hd. by rewrite Hd in H.
      * by rewrite init_blank in H.
    + intros H. destruct default_greeting; try discriminate;
        eexists; reflexivity.
  - split.
    + intros (msg & H). destruct (text_or_blank d) as [Hd|Hd]; [|exact Hd].
      by rewrite Hok in H.
    + intros H. eexists. by apply init_blank.
  - intros Hd. split; [by apply Hok|]. split; [by apply has_text_strip|].
    split; [apply strip_idempotent|].
    destruct (strip_spec d) as (l & r & _ & _ & _ & Hh & Ht).
    unfold whitespace. split; intros c Hc.
    + rewrite (Hh c Hc). discriminate.
    + rewrite (Ht c Hc). discriminate.
  - reflexivity.
Qed.

Lemma X2_init_witness :
  Greeter.__init__ (Some (VStr (lit " Good morning  "))) (Some false)
  = Ok {| Greeter.default_greeting := lit "Good morning";
          Greeter.case_sensitive := false;
          Greeter.greeting_history := [] |}.
Proof.
  apply (proj1 (proj2 (proj2 (X2_init VNone (lit " Good morning  ")
                                (Some false))))).
  apply has_textb_spec. reflexivity.
Defined.

(** ** The two batch formatters together *)

Lemma greet_multiple_valid (names : list value) (g : str) :
  Forall valid_name names →
  greet_multiple (VList names) (Some (VStr g))
  = Ok (omap (message_of g) names).
Proof.
  intros H. unfold greet_multiple. simpl.
  rewrite <- (app_nil_r names) at 1.
  by rewrite (greet_multiple_loop_app g names [] _ []
                (valid_names_messages g names H)).
Qed.

Lemma omap_filter_valid (g : str) (names : list value) :
  omap (message_of g) (filter (λ v, valid_nameb v = true) names)
  = omap (message_of g) names.
Proof.
  induction names as [|v names IH]; [reflexivity|].
  destruct (valid_nameb v) eqn:E.
  - rewrite filter_cons_True by done. simpl.
    destruct (message_of g v); [f_equal|]; exact IH.
  - rewrite filter_cons_False by congruence. simpl.
    assert (message_of g v = None) as ->; [|exact IH].
    apply message_of_None. rewrite <- valid_nameb_spec. congruence.
Qed.

(** The greeting a batch formatter works with is a [str] or the call
    raises on it. *)
Lemma batch_greeting_cases (rt : Runtime) (greeting : option value) :
  (∃ g, ∀ names,
     greet_multiple (VList names) greeting
     = greet_multiple (VList names) (Some (VStr g))
     ∧ greet_multiple_safe rt (VList names) greeting
       = greet_multiple_safe rt (VList names) (Some (VStr g))
     ∧ greet_multiple_safe_locals rt (VList names) greeting
       = greet_multiple_safe_locals rt (VList names) (Some (VStr g)))
  ∨ (∀ names,
       greet_multiple (VList names) greeting
       = Raise (TypeError "Greeting must be a string")
       ∧ greet_multiple_safe rt (VList names) greeting
         = Raise (TypeError "Greeting must be a string")
       ∧ greet_multiple_safe_locals rt (VList names) greeting
         = Raise (TypeError "Greeting must be a string")).
Proof.
  destruct greeting as [v|]; [|left; by exists (lit "Hello")].
  destruct v as [| | |g| |]; try (right; intros names; by repeat split).
  left. by exists g.
Qed.

Lemma filter_valid_names (names : list value) :
  Forall valid_name (filter (λ v, valid_nameb v = true) names).
Proof.
  apply Forall_forall. intros v [Hv _]%list_elem_of_filter.
  by apply valid_nameb_spec.
Qed.

Lemma valid_passable (rt : Runtime) (names : list value) :
  Forall valid_name names → Forall (passable rt) names.
Proof.
  intros H. eapply Forall_impl; [exact H|]. intros v Hv. left.
  by apply valid_nameb_spec.
Qed.

(** X3: the tolerant formatter is the strict one on the valid names,
    wherever [repr] of no invalid entry raises: then, for every greeting
    argument, [greet_multiple_safe] returns, or raises, what
    [greet_multiple] does on the list without its invalid entries. So it
    is whenever [greet_multiple_safe] returns, and on a list of valid names
    the two agree. Where [repr] of an invalid entry raises, after entries
    where it does not, [greet_multiple_safe] raises that exception. *)
Theorem X3_safe_is_strict_on_valid (rt : Runtime) (names : list value)
    (greeting : option value) :
  (Forall (passable rt) names →
   greet_multiple_safe rt (VList names) greeting
   = greet_multiple (VList (filter (λ v, valid_nameb v = true) names)) greeting)
  ∧ (∀ msgs,
       greet_multiple_safe rt (VList names) greeting = Ok msgs →
       greet_multiple (VList (filter (λ v, valid_nameb v = true) names))
         greeting = Ok msgs)
  ∧ (Forall valid_name names →
     greet_multiple_safe rt (VList names) greeting
     = greet_multiple (VList names) greeting)
  ∧ (∀ g pre x post e,
       names = pre ++ x :: post → greeting = Some (VStr g) →
       Forall (passable rt) pre → valid_nameb x = false →
       repr rt x = Some e →
       greet_multiple_safe rt (VList names) greeting = Raise e).
Proof.
  assert (Forall (passable rt) names →
          greet_multiple_safe rt (VList names) greeting
          = greet_multiple (VList (filter (λ v, valid_nameb v = true) names))
              greeting) as Hsame.
  { intros Hp. destruct (batch_greeting_cases rt greeting) as [[g Hg] | Hraise].
    - rewrite (proj1 (proj2 (Hg names))), (proj1 (Hg _)).
      rewrite (proj1 (safe_batch_ok rt names g Hp)).
      rewrite (greet_multiple_valid _ g (filter_valid_names names)).
      by rewrite omap_filter_valid.
    - rewrite (proj1 (proj2 (Hraise names))). by rewrite (proj1 (Hraise _)). }
  split; [exact Hsame|]. split; [|split].
  - intros msgs Hok.
    destruct (passable_or_not rt names)
      as [Hp | (pre & x & post & e & -> & Hpre & Hx & Hr)].
    + by rewrite <- Hsame.
    + destruct (batch_greeting_cases rt greeting) as [[g Hg] | Hraise].
      * rewrite (proj1 (proj2 (Hg _))) in Hok.
        by rewrite (proj1 (safe_batch_raises rt g pre post x e Hpre Hx Hr))
          in Hok.
      * by rewrite (proj1 (proj2 (Hraise _))) in Hok.
  - intros Hvalid.
    destruct (batch_greeting_cases rt greeting) as [[g Hg] | Hraise].
    + rewrite (proj1 (proj2 (Hg names))), (proj1 (Hg names)).
      rewrite (proj1 (safe_batch_ok rt names g (valid_passable rt _ Hvalid))).
      by rewrite greet_multiple_valid.
    + rewrite (proj1 (proj2 (Hraise names))). by rewrite (proj1 (Hraise _)).
  - intros g pre x post e -> -> Hpre Hx Hr. by apply safe_batch_raises.
Qed.

Lemma X3_safe_is_strict_on_valid_witness :
  greet_multiple_safe default_runtime
    (VList [VStr (lit "Alice"); VInt 7; VStr (lit " Bob "); VStr []]) None
  = greet_multiple (VList [VStr (lit "Alice"); VStr (lit " Bob ")]) None.
Proof.
  apply (proj1 (X3_safe_is_strict_on_valid default_runtime
                  [VStr (lit "Alice"); VInt 7; VStr (lit " Bob "); VStr []]
                  None)).
  repeat (constructor; [first [by left | by right]|]). constructor.
Defined.

Lemma produced_and_skipped (g : str) (names : list value) :
  length (omap (message_of g) names)
  + length (filter (λ v, valid_nameb v = false) names)
  = length names.
Proof.
  induction names as [|v names IH]; [reflexivity|].
  destruct (valid_nameb v) eqn:E.
  - rewrite filter_cons_False by congruence.
    apply valid_nameb_spec in E as (n & -> & Hn). simpl.
    apply has_textb_spec in Hn. rewrite Hn. simpl. f_equal. exact IH.
  - rewrite filter_cons_True by done. simpl.
    assert (message_of g v = None) as ->.
    { apply message_of_None. rewrite <- valid_nameb_spec. congruence. }
    simpl. rewrite Nat.add_succ_r. f_equal. exact IH.
Qed.

(** X4: when [greet_multiple_safe] ends without an exception, the messages
    it made and the entries it counted in [skipped_count] are together the
    entries of the list: every entry is greeted or counted once, and it
    returns no more messages than it got entries. (Where it raises, on an
    entry whose [repr] raises, the entry has been counted once or twice and
    the counter is lost with the call.) *)
Theorem X4_produced_plus_skipped (rt : Runtime) (names : list value)
    (greeting : option value) (greetings : list str) (skipped_count : nat) :
  greet_multiple_safe_locals rt (VList names) greeting
  = Ok (greetings, skipped_count) →
  length greetings + skipped_count = length names
  ∧ length greetings ≤ length names
  ∧ greet_multiple_safe rt (VList names) greeting = Ok greetings.
Proof.
  intros H.
  assert (length greetings + skipped_count = length names) as Hsum.
  { destruct (batch_greeting_cases rt greeting) as [[g Hg] | Hraise].
    - rewrite (proj2 (proj2 (Hg names))) in H.
      destruct (passable_or_not rt names)
        as [Hp | (pre & x & post & e & -> & Hpre & Hx & Hr)].
      + rewrite (proj2 (safe_batch_ok rt names g Hp)) in H.
        injection H as <- <-. apply produced_and_skipped.
      + by rewrite (proj2 (safe_batch_raises rt g pre post x e Hpre Hx Hr))
          in H.
    - by rewrite (proj2 (proj2 (Hraise names))) in H. }
  split; [exact Hsum|]. split; [lia|].
  unfold greet_multiple_safe. by rewrite H.
Qed.

Lemma X4_produced_plus_skipped_witness :
  greet_multiple_safe_locals default_runtime
    (VList [VStr (lit "Alice"); VStr []; VInt 7; VStr (lit " Bob"); VNone])
    (Some (VStr (lit "Hi")))
  = Ok ([lit "Hi, Alice!"; lit "Hi, Bob!"], 3)
  ∧ length [lit "Hi, Alice!"; lit "Hi, Bob!"] + 3
    = length [VStr (lit "Alice"); VStr []; VInt 7; VStr (lit " Bob"); VNone].
Proof.
  split; [reflexivity|].
  apply (X4_produced_plus_skipped default_runtime
           [VStr (lit "Alice"); VStr []; VInt 7; VStr (lit " Bob"); VNone]
           (Some (VStr (lit "Hi")))
           [lit "Hi, Alice!"; lit "Hi, Bob!"] 3).
  reflexivity.
Defined.

Lemma greet_multiple_loop_acc (greeting : value) (names : list value)
    (greetings : list str) :
  greet_multiple_loop greeting greetings names
  = (let* made := greet_multiple_loop greeting [] names in
     Ok (greetings ++ made)).
Proof.
  revert greetings.
  induction names as [|name names IH]; intros greetings; simpl.
  - by rewrite app_nil_r.
  - destruct (greet name (Some greeting)) as [m|e]; simpl; [|reflexivity].
    rewrite (IH (greetings ++ [m])), (IH [m]).
    destruct (greet_multiple_loop greeting [] names); simpl; [|reflexivity].
    by rewrite <- app_assoc.
Qed.

Lemma greet_multiple_loop_concat (greeting : value) (l1 l2 : list value)
    (greetings : list str) :
  greet_multiple_loop greeting greetings (l1 ++ l2)
  = (let* made := greet_multiple_loop greeting greetings l1 in
     greet_multiple_loop greeting made l2).
Proof.
  revert greetings.
  induction l1 as [|name l1 IH]; intros greetings; simpl; [reflexivity|].
  destruct (greet name (Some greeting)) as [m|e]; simpl; [|reflexivity].
  apply IH.
Qed.

(** The tolerant loop from given local variables is the loop from the
    initial ones, its messages put after the given ones and its count added
    to the given one; it raises where that one raises. *)
Lemma greet_multiple_safe_loop_acc (rt : Runtime) (greeting : value)
    (names : list value) (greetings : list str) (skipped_count : nat) :
  greet_multiple_safe_loop rt greeting greetings skipped_count names
  = (let* made := greet_multiple_safe_loop rt greeting [] 0 names in
     Ok (greetings ++ fst made, skipped_count + snd made)).
Proof.
  assert (∀ name gs k,
            safe_turn rt greeting name gs k
            = (let r := safe_turn rt greeting name [] 0 in
               ((gs ++ fst (fst r), k + snd (fst r)), snd r))) as Hturn.
  { intros name gs k.
    unfold safe_turn, safe_try, safe_except, warn_skipping.
    destruct (str_and_strips name).
    - destruct (greet name (Some greeting)) as [m|e]; simpl.
      + by rewrite Nat.add_0_r.
      + destruct (caught e); simpl; rewrite app_nil_r; do 2 f_equal; lia.
    - destruct (repr rt name) as [e|]; simpl;
        [|by rewrite app_nil_r].
      destruct (caught e); simpl; rewrite app_nil_r; do 2 f_equal; lia. }
  revert greetings skipped_count.
  induction names as [|name names IH]; intros greetings skipped_count.
  - simpl. by rewrite app_nil_r, Nat.add_0_r.
  - cbn [greet_multiple_safe_loop]. rewrite (Hturn name greetings).
    destruct (safe_turn rt greeting name [] 0) as [[gs k] [e|]];
      cbn [fst snd]; [reflexivity|].
    rewrite (IH (greetings ++ gs)), (IH gs).
    destruct (greet_multiple_safe_loop rt greeting [] 0 names)
      as [[gs' k']|e]; simpl; [|reflexivity].
    rewrite <- app_assoc. do 2 f_equal. lia.
Qed.

(** X5: a batch can be cut in two: each formatter, on a list [l1 ++ l2]
    and for every greeting argument, returns the messages of [l1] followed
    by those of [l2], and raises what the call on [l1] raises, or else
    what the call on [l2] raises. *)
Theorem X5_batch_concat (rt : Runtime) (l1 l2 : list value)
    (greeting : option value) :
  greet_multiple (VList (l1 ++ l2)) greeting
  = (let* a := greet_multiple (VList l1) greeting in
     let* b := greet_multiple (VList l2) greeting in
     Ok (a ++ b))
  ∧ greet_multiple_safe rt (VList (l1 ++ l2)) greeting
    = (let* a := greet_multiple_safe rt (VList l1) greeting in
       let* b := greet_multiple_safe rt (VList l2) greeting in
       Ok (a ++ b)).
Proof.
  split.
  - unfold greet_multiple.
    destruct (isinstance_str (arg_or (VStr (lit "Hello")) greeting));
      simpl; [|reflexivity].
    rewrite greet_multiple_loop_concat.
    destruct (greet_multiple_loop _ [] l1) as [a|e]; simpl; [|reflexivity].
    apply greet_multiple_loop_acc.
  - unfold greet_multiple_safe, greet_multiple_safe_locals.
    destruct (isinstance_str (arg_or (VStr (lit "Hello")) greeting));
      simpl; [|reflexivity].
    rewrite greet_multiple_safe_loop_app.
    destruct (greet_multiple_safe_loop rt _ [] 0 l1) as [[a k]|e];
      simpl; [|reflexivity].
    rewrite greet_multiple_safe_loop_acc.
    by destruct (greet_multiple_safe_loop rt _ [] 0 l2) as [[b j]|e].
Qed.

(** The turn on [10**4300] with the default limits: counted in the
    [else] branch, counted again in the [except] clause that caught the
    [ValueError] of [repr], which raises it anew. *)
Example turn_on_long_int :
  safe_turn default_runtime (VStr (lit "Hello")) (VInt (10 ^ 4300)) [] 0
  = (([], 2), Some (ValueError (int_max_str_error default_runtime))).
Proof.
  rewrite (safe_turn_invalid default_runtime _ (VInt (10 ^ 4300)) [] 0 eq_refl).
  by rewrite ten_to_4300.
Qed.

Lemma plain_values_passable (rt : Runtime) (v : value) :
  match v with
  | VNone | VBool _ | VStr _ => True
  | _ => False
  end →
  passable rt v.
Proof.
  intros H. right. unfold repr.
  destruct v; try done; by destruct (repr_depth rt).
Qed.

(** X14: on a list in which [repr] raises on no invalid entry, as on
    every list of [str], [None] and [bool] entries, and for a text
    greeting, [greet_multiple_safe] raises nothing and returns exactly the
    messages of the valid names, in the order of the list, each the result
    of [greet] on its name; the invalid entries are left out, and
    [skipped_count] counts them. *)
Theorem X14_safe_on_passable (rt : Runtime) (names : list value) (g : str) :
  Forall (passable rt) names →
  greet_multiple_safe rt (VList names) (Some (VStr g))
  = Ok (omap (message_of g) names)
  ∧ greet_multiple_safe_locals rt (VList names) (Some (VStr g))
    = Ok (omap (message_of g) names,
          length (filter (λ v, valid_nameb v = false) names))
  ∧ (∀ v m, message_of g v = Some m
            ↔ valid_name v ∧ greet v (Some (VStr g)) = Ok m)
  ∧ (∀ v, message_of g v = None ↔ ¬ valid_name v)
  ∧ (∀ v, match v with
          | VNone | VBool _ | VStr _ => True
          | _ => False
          end → passable rt v).
Proof.
  intros Hp. destruct (safe_batch_ok rt names g Hp) as [H1 H2].
  split; [exact H1|]. split; [exact H2|]. split; [|split].
  - intros v m. apply message_of_spec.
  - intros v. apply message_of_None.
  - apply plain_values_passable.
Qed.

Lemma X14_safe_on_passable_witness :
  greet_multiple_safe default_runtime
    (VList [VStr (lit "Alice"); VStr []; VStr (lit "Bob"); VNone;
            VStr (lit "Charlie")])
    (Some (VStr (lit "Hello")))
  = Ok [lit "Hello, Alice!"; lit "Hello, Bob!"; lit "Hello, Charlie!"].
Proof.
  apply (X14_safe_on_passable default_runtime
           [VStr (lit "Alice"); VStr []; VStr (lit "Bob"); VNone;
            VStr (lit "Charlie")] (lit "Hello")).
  repeat (constructor; [by apply plain_values_passable|]). constructor.
Defined.

(** ** Sequences of calls of [Greeter.greet] *)

(** X6: after any sequence of calls of [greet] on a greeter, with
    whatever arguments, the history is the one before followed by exactly
    the messages the calls returned, in the order of the calls; the calls
    that raised left no trace, and the default greeting and the case flag
    are the ones before. *)
Theorem X6_history_is_returned_messages (ud : UnicodeData) (self : Greeter.t)
    (calls : list (value * option value)) :
  Greeter.greeting_history (snd (greet_many ud self calls))
  = Greeter.greeting_history self
    ++ omap returned (fst (greet_many ud self calls))
  ∧ Greeter.default_greeting (snd (greet_many ud self calls))
    = Greeter.default_greeting self
  ∧ Greeter.case_sensitive (snd (greet_many ud self calls))
    = Greeter.case_sensitive self
  ∧ length (fst (greet_many ud self calls)) = length calls.
Proof.
  revert self. induction calls as [|[name greeting] calls IH]; intros self.
  - simpl. by rewrite app_nil_r.
  - cbn [greet_many fst snd].
    pose proof (greeter_greet_result ud self name greeting) as Hr.
    destruct (IH (snd (Greeter.greet ud self name greeting)))
      as (Hh & Hd & Hc & Hl).
    rewrite Hh, Hd, Hc. cbn [length]. rewrite Hl.
    destruct (fst (Greeter.greet ud self name greeting)) as [m|e];
      rewrite Hr; simpl; [|done].
    by rewrite <- app_assoc.
Qed.

(** ** When [get_statistics] raises *)

Lemma starts_with_app (p b : str) : Str.starts_with p (p ++ b) = true.
Proof.
  induction p as [|x p IH]; [by destruct b|]. simpl.
  by rewrite N.eqb_refl, IH.
Qed.

Lemma cut_app_sep (sep a b : str) : is_Some (cut sep (a ++ sep ++ b)).
Proof.
  induction a as [|c a IH]; rewrite cut_unfold.
  - simpl. by rewrite starts_with_app.
  - destruct (Str.starts_with sep ((c :: a) ++ sep ++ b)); [done|].
    simpl. destruct IH as [[x y] ->]. done.
Qed.

Lemma split_scan_nonempty (sep s : str) (k : nat) :
  ∃ f r, Str.split_scan sep k s = f :: r.
Proof.
  revert k. induction s as [|c s IH]; intros k; simpl; [by eauto|].
  destruct k as [|k]; [|apply IH].
  destruct (Str.starts_with sep (c :: s)); [by eauto|].
  destruct (IH 0) as (f & r & ->). simpl. eauto.
Qed.

(** [msg.split(', ')[1]] exists exactly when the message holds [", "]. *)
Lemma name_of_cases (msg : str) :
  (has_separator msg ∧ ∃ n, Greeter.name_of msg = Ok n)
  ∨ (cut (lit ", ") msg = None
     ∧ Greeter.name_of msg = Raise (IndexError "list index out of range")).
Proof.
  unfold has_separator, Greeter.name_of, Str.split.
  change (lit ", ") with [44%N; 32%N].
  rewrite split_scan_cut by done.
  destruct (cut [44%N; 32%N] msg) as [[a b]|] eqn:E.
  - left. split; [done|].
    destruct (split_scan_nonempty [44%N; 32%N] b 0) as (f & r & ->).
    simpl. eauto.
  - right. by split.
Qed.

Lemma mapM_all_ok {A B} (f : A → result B) (l : list A) :
  Forall (λ a, ∃ b, f a = Ok b) l → ∃ l', mapM f l = Ok l'.
Proof.
  induction 1 as [|a l [b Hb] _ [l' IH]]; simpl; [by eauto|].
  rewrite Hb, IH. simpl. eauto.
Qed.

Lemma mapM_one_raises {A B} (f : A → result B) (l : list A) (e : exn) :
  (∀ a, (∃ b, f a = Ok b) ∨ f a = Raise e) →
  Exists (λ a, f a = Raise e) l →
  mapM f l = Raise e.
Proof.
  intros Hf. induction 1 as [a l Ha | a l _ IH]; simpl.
  - by rewrite Ha.
  - destruct (Hf a) as [[b ->] | ->]; [|reflexivity]. simpl. by rewrite IH.
Qed.

Lemma mapM_length {A B} (f : A → result B) (l : list A) (l' : list B) :
  mapM f l = Ok l' → length l' = length l.
Proof.
  revert l'. induction l as [|a l IH]; intros l'; simpl.
  - by intros [= <-].
  - destruct (f a); [|discriminate]. simpl.
    destruct (mapM f l) as [bs|]; [|discriminate]. simpl.
    intros [= <-]. simpl. f_equal. by apply IH.
Qed.

Lemma name_of_error (msg : str) :
  (∃ n, Greeter.name_of msg = Ok n)
  ∨ Greeter.name_of msg = Raise (IndexError "list index out of range").
Proof.
  destruct (name_of_cases msg) as [[_ H] | [_ H]]; [by left | by right].
Qed.

Lemma get_statistics_raises (self : Greeter.t) :
  Exists (λ msg, cut (lit ", ") msg = None) (Greeter.greeting_history self) →
  Greeter.get_statistics self
  = Raise (IndexError "list index out of range").
Proof.
  intros H. unfold Greeter.get_statistics.
  destruct (Greeter.greeting_history self) as [|msg history] eqn:Eh.
  { by apply Exists_nil in H. }
  rewrite <- Eh in *.
  replace (length (Greeter.greeting_history self) =? 0) with false
    by (by rewrite Eh).
  rewrite (mapM_total _ _ _ greeting_word_spec). cbn [bind].
  destruct (most_common_spec (map before_comma (Greeter.greeting_history self)))
    as (w & n & -> & _).
  { by rewrite Eh. }
  cbn [bind getitem lookup list_lookup fst].
  rewrite (mapM_one_raises Greeter.name_of _ _ name_of_error); [reflexivity|].
  eapply Exists_impl; [exact H|]. intros m Hm.
  destruct (name_of_cases m) as [[[x Hx] _] | [_ Hr]]; [|exact Hr].
  unfold has_separator in *. congruence.
Qed.

Lemma get_statistics_returns (self : Greeter.t) :
  Forall has_separator (Greeter.greeting_history self) →
  ∃ stats, Greeter.get_statistics self = Ok stats.
Proof.
  intros H.
  destruct (Greeter.greeting_history self) as [|msg history] eqn:Eh.
  { unfold Greeter.get_statistics. rewrite Eh. simpl. eauto. }
  rewrite <- Eh in H.
  destruct (mapM_all_ok Greeter.name_of (Greeter.greeting_history self))
    as [names Hnames].
  { eapply Forall_impl; [exact H|]. intros m Hm.
    destruct (name_of_cases m) as [[_ Hn] | [Hc _]]; [exact Hn|].
    unfold has_separator in Hm. rewrite Hc in Hm. by destruct Hm. }
  destruct (get_statistics_parsed self
              (map before_comma (Greeter.greeting_history self)) names)
    as (w & Hw & _).
  - by rewrite Eh.
  - apply mapM_total, greeting_word_spec.
  - exact Hnames.
  - eauto.
Qed.

Lemma separators_or_not (history : list str) :
  Forall has_separator history
  ∨ Exists (λ msg, cut (lit ", ") msg = None) history.
Proof.
  induction history as [|msg history [IH|IH]].
  - left. constructor.
  - destruct (cut (lit ", ") msg) as [p|] eqn:E.
    + left. constructor; [|exact IH]. unfold has_separator. by rewrite E.
    + right. by left.
  - right. by right.
Qed.

(** X7: [get_statistics] raises exactly when a message of the history
    holds no [", "], and what it raises then is the [IndexError] of
    [msg.split(', ')[1]]; it raises nothing else, and nothing on an empty
    history. *)
Theorem X7_statistics_index_error (self : Greeter.t) :
  ((∃ e, Greeter.get_statistics self = Raise e)
   ↔ Exists (λ msg, cut (lit ", ") msg = None) (Greeter.greeting_history self))
  ∧ (∀ e, Greeter.get_statistics self = Raise e →
          e = IndexError "list index out of range")
  ∧ ((∃ stats, Greeter.get_statistics self = Ok stats)
     ↔ Forall has_separator (Greeter.greeting_history self)).
Proof.
  destruct (separators_or_not (Greeter.greeting_history self)) as [H|H].
  - destruct (get_statistics_returns self H) as [stats Hs].
    split; [|split].
    + split; [intros [e He]; congruence|].
      intros Hex. apply Exists_exists in Hex as (m & Hin & Hm).
      rewrite Forall_forall in H. specialize (H m Hin).
      unfold has_separator in H. rewrite Hm in H. by destruct H.
    + intros e He. congruence.
    + split; [done | eauto].
  - pose proof (get_statistics_raises self H) as Hr.
    split; [|split].
    + split; [done | eauto].
    + intros e He. congruence.
    + split; [intros [stats Hs]; congruence|].
      intros Hall. apply Exists_exists in H as (m & Hin & Hm).
      rewrite Forall_forall in Hall. specialize (Hall m Hin).
      unfold has_separator in Hall. rewrite Hm in Hall. by destruct Hall.
Qed.

(** ** Greeters built through the interface *)

Lemma greet_returns_separator (name : value) (greeting : option value)
    (m : str) :
  greet name greeting = Ok m → has_separator m.
Proof.
  unfold greet. destruct name as [| | |n| |]; try discriminate.
  destruct (arg_or (VStr (lit "Hello")) greeting) as [| | |g| |];
    try discriminate.
  destruct (negb (Str.truthy n) || negb (Str.truthy (Str.strip n)));
    [discriminate|].
  intros [= <-].
  exact (cut_app_sep (lit ", ") g (Str.strip n ++ lit "!")).
Qed.

Lemma greeter_greet_separators (ud : UnicodeData) (self : Greeter.t)
    (name : value) (greeting : option value) :
  Forall has_separator (Greeter.greeting_history self) →
  Forall has_separator
    (Greeter.greeting_history (snd (Greeter.greet ud self name greeting))).
Proof.
  intros H. unfold Greeter.greet.
  match goal with |- context [greet ?a ?b] => destruct (greet a b) eqn:E end;
    simpl; [|exact H].
  apply Forall_app. split; [exact H|]. constructor; [|constructor].
  by eapply greet_returns_separator.
Qed.

Lemma run_calls_separators (ud : UnicodeData) (calls : list call)
    (self : Greeter.t) :
  Forall has_separator (Greeter.greeting_history self) →
  Forall has_separator (Greeter.greeting_history (run_calls ud self calls)).
Proof.
  revert self. induction calls as [|c calls IH]; intros self H; [exact H|].
  unfold run_calls in *. simpl. apply IH. destruct c as [name greeting|].
  - by apply greeter_greet_separators.
  - constructor.
Qed.

(** X8: on a greeter made by the constructor and used through [greet]
    and [clear_history] only, in any order and with any arguments,
    [get_statistics] never raises: every message of its history holds the
    [", "] that the parsing looks for. *)
Theorem X8_statistics_total_on_built (ud : UnicodeData)
    (default_greeting : option value) (cs : option bool) (self : Greeter.t)
    (calls : list call) :
  Greeter.__init__ default_greeting cs = Ok self →
  (∃ stats, Greeter.get_statistics (run_calls ud self calls) = Ok stats)
  ∧ Forall has_separator (Greeter.greeting_history (run_calls ud self calls)).
Proof.
  intros Hinit.
  assert (Greeter.greeting_history self = []) as Hh.
  { unfold Greeter.__init__ in Hinit.
    destruct (arg_or (VStr (lit "Hello")) default_greeting) as [| | |d| |];
      try discriminate.
    destruct (negb (Str.truthy (Str.strip d))); [discriminate|].
    by injection Hinit as <-. }
  assert (Forall has_separator
            (Greeter.greeting_history (run_calls ud self calls))) as H.
  { apply run_calls_separators. rewrite Hh. constructor. }
  split; [|exact H]. by apply get_statistics_returns.
Qed.

Lemma X8_statistics_total_on_built_witness :
  ∃ stats,
    Greeter.get_statistics
      (run_calls ascii_only (greeter_after [])
         [CallGreet (VStr (lit "a, b!")) (Some (VStr (lit "x,y")));
          CallGreet (VInt 3) None; CallClear;
          CallGreet (VStr (lit "!")) (Some (VStr []))])
    = Ok stats.
Proof.
  apply (X8_statistics_total_on_built ascii_only None None (greeter_after [])).
  reflexivity.
Defined.

(** ** What [get_statistics] returns *)

Lemma size_list_to_set_le (l : list str) :
  size (list_to_set (C := gset str) l) ≤ length l.
Proof.
  induction l as [|x l IH].
  - by rewrite list_to_set_nil, size_empty.
  - rewrite list_to_set_cons, size_union_alt, size_singleton.
    assert (size (list_to_set (C := gset str) l ∖ {[x]})
            ≤ size (list_to_set (C := gset str) l)) as Hsub.
    { apply subseteq_size. intros y [Hy _]%elem_of_difference. exact Hy. }
    simpl. lia.
Qed.

Lemma size_list_to_set_pos (x : str) (l : list str) :
  1 ≤ size (list_to_set (C := gset str) (x :: l)).
Proof. rewrite list_to_set_cons, size_union_alt, size_singleton. lia. Qed.

(** X9: a snapshot that [get_statistics] returns is consistent:
    [total_greetings] is the length of the history, [unique_names] is at
    most [total_greetings], both are 0 and there is no most common greeting
    on an empty history, and on any other history there is at least one
    name and the most common greeting is the most frequent of the texts
    before the first comma of the messages, the first of them at a tie. *)
Theorem X9_statistics_consistent (self : Greeter.t) (stats : statistics) :
  Greeter.get_statistics self = Ok stats →
  total_greetings stats = length (Greeter.greeting_history self)
  ∧ unique_names stats ≤ total_greetings stats
  ∧ (Greeter.greeting_history self = [] →
     unique_names stats = 0 ∧ most_common_greeting stats = None)
  ∧ (Greeter.greeting_history self ≠ [] →
     1 ≤ unique_names stats
     ∧ ∃ w, most_common_greeting stats = Some w
            ∧ first_most_frequent w
                (map before_comma (Greeter.greeting_history self))).
Proof.
  intros H.
  destruct (Greeter.greeting_history self) as [|msg history] eqn:Eh.
  - unfold Greeter.get_statistics in H. rewrite Eh in H. simpl in H.
    injection H as <-. simpl. repeat split; done.
  - destruct (mapM Greeter.name_of (Greeter.greeting_history self))
      as [names|e] eqn:Enames.
    + destruct (get_statistics_parsed self
                  (map before_comma (Greeter.greeting_history self)) names)
        as (w & Hw & Hfirst).
      * by rewrite Eh.
      * apply mapM_total, greeting_word_spec.
      * exact Enames.
      * rewrite Hw in H. injection H as <-. simpl.
        apply mapM_length in Enames as Hlen.
        pose proof (size_list_to_set_le names) as Hle.
        rewrite Eh in *. split; [reflexivity|]. split; [simpl in *; lia|].
        split; [done|]. intros _. split; [|by eauto].
        destruct names as [|x names]; [discriminate|].
        apply size_list_to_set_pos.
    + assert (Greeter.get_statistics self = Raise e) as Hr; [|congruence].
      unfold Greeter.get_statistics. rewrite Eh at 1. cbn [length Nat.eqb].
      rewrite (mapM_total _ _ _ greeting_word_spec). cbn [bind].
      destruct (most_common_spec
                  (map before_comma (Greeter.greeting_history self)))
        as (w & n & -> & _).
      { by rewrite Eh. }
      cbn [bind getitem lookup list_lookup fst]. by rewrite Enames.
Qed.

Lemma X9_statistics_consistent_witness :
  Greeter.get_statistics
    (greeter_after [(lit "World", lit "Hi"); (lit " Bob ", lit "Hi");
                    (lit "Bob", lit "Yo")])
  = Ok {| total_greetings := 3; unique_names := 2;
          most_common_greeting := Some (lit "Hi") |}
  ∧ unique_names
      {| total_greetings := 3; unique_names := 2;
         most_common_greeting := Some (lit "Hi") |}
    ≤ total_greetings
        {| total_greetings := 3; unique_names := 2;
           most_common_greeting := Some (lit "Hi") |}.
Proof.
  assert (Greeter.get_statistics
            (greeter_after [(lit "World", lit "Hi"); (lit " Bob ", lit "Hi");
                            (lit "Bob", lit "Yo")])
          = Ok {| total_greetings := 3; unique_names := 2;
                  most_common_greeting := Some (lit "Hi") |}) as H
    by (by vm_compute).
  split; [exact H|].
  exact (proj1 (proj2 (X9_statistics_consistent _ _ H))).
Defined.

(** ** Messages read back *)

Lemma before_comma_none (g : str) : 44%N ∉ g → before_comma g = g.
Proof.
  induction g as [|c g IH]; [reflexivity|].
  intros [Hc Hg]%not_elem_of_cons. simpl.
  destruct (c =? 44)%N eqn:E.
  - apply N.eqb_eq in E. congruence.
  - by rewrite IH.
Qed.

Lemma cut_no_first (sep s : str) (c : N) :
  head sep = Some c → c ∉ s → cut sep s = None.
Proof.
  intros Hsep. destruct sep as [|x sep]; [discriminate|].
  injection Hsep as ->.
  induction s as [|a s IH]; [reflexivity|].
  intros [Ha Hs]%not_elem_of_cons. rewrite cut_unfold. simpl.
  assert ((c =? a)%N = false) as -> by (apply N.eqb_neq; congruence).
  simpl. by rewrite IH.
Qed.

(** X10: the parsing of [get_statistics] reads a message of [greet] back:
    for a greeting without a comma and a valid name whose trimmed form
    holds no [", "] and does not end with ["!"], [msg.split(',')[0]] is the
    greeting and [msg.split(', ')[1].rstrip('!')] is the trimmed name. *)
Theorem X10_message_read_back (n g : str) :
  has_text n →
  44%N ∉ g →
  cut (lit ", ") (Str.strip n) = None →
  last (Str.strip n) ≠ Some 33%N →
  ∃ m, greet (VStr n) (Some (VStr g)) = Ok m
       ∧ Greeter.greeting_word m = Ok g
       ∧ Greeter.name_of m = Ok (Str.strip n).
Proof.
  intros Hn Hg Hcut Hlast. exists (message g n).
  assert (cut (lit ", ") g = None) as Hcg.
  { by apply (cut_no_first _ _ 44%N). }
  destruct (message_plain g n Hcg Hcut Hlast) as (Hb & _ & Hw).
  split; [by apply greet_text|]. split.
  - rewrite greeting_word_spec, Hw. by rewrite before_comma_none.
  - by apply name_of_spec.
Qed.

Lemma X10_message_read_back_witness :
  ∃ m, greet (VStr (lit "  Ada Lovelace ")) (Some (VStr (lit "Good day")))
       = Ok m
       ∧ Greeter.greeting_word m = Ok (lit "Good day")
       ∧ Greeter.name_of m = Ok (lit "Ada Lovelace").
Proof.
  apply (X10_message_read_back (lit "  Ada Lovelace ") (lit "Good day")).
  - apply has_textb_spec. reflexivity.
  - apply (bool_decide_unpack _). reflexivity.
  - reflexivity.
  - vm_compute. discriminate.
Defined.

Lemma X11_statistics_after_plain_calls_witness :
  ∃ w,
    Greeter.get_statistics
      (greeter_after [(lit "World", lit "Hi"); (lit " Bob ", lit "Hi");
                      (lit "Bob", lit "Yo")])
    = Ok {| total_greetings := 3;
            unique_names :=
              size (list_to_set (C := gset str)
                      [lit "World"; lit "Bob"; lit "Bob"]);
            most_common_greeting := Some w |}
    ∧ first_most_frequent w [lit "Hi"; lit "Hi"; lit "Yo"].
Proof.
  apply (statistics_after_plain_calls
           [(lit "World", lit "Hi"); (lit " Bob ", lit "Hi");
            (lit "Bob", lit "Yo")]).
  - discriminate.
  - repeat constructor; try (apply has_textb_spec; reflexivity);
      try reflexivity; vm_compute; discriminate.
Defined.

(** ** The case-insensitive greeter on ASCII names *)

Ltac unfold_case :=
  unfold ascii_letter, to_upper, to_lower, Str.ascii_upper, Str.ascii_lower
    in *.

Ltac case_bounds :=
  repeat match goal with
    | |- context [(?a <=? ?b)%N] => destruct (N.leb_spec a b)
    | H : context [(?a <=? ?b)%N] |- _ => destruct (N.leb_spec a b)
    end;
  cbn [andb orb negb] in *.

Lemma all_ascii (s : str) :
  forallb (λ c, (c <? 128)%N) s = true → Forall (λ c, (c < 128)%N) s.
Proof.
  intros H. apply Forall_forall. intros c Hc. apply N.ltb_lt.
  rewrite forallb_forall in H. by apply H, list_elem_of_In.
Qed.

Lemma same_lower (c1 c2 : N) :
  to_lower c1 = to_lower c2 →
  ascii_letter c1 = ascii_letter c2 ∧ to_upper c1 = to_upper c2.
Proof. unfold_case. intros H. case_bounds; split; try reflexivity; lia. Qed.

Lemma letter_not_space (c : N) : (65 ≤ c ≤ 122)%N → Str.isspace c = false.
Proof.
  intros [H1 H2]. unfold Str.isspace.
  repeat (apply orb_false_iff; split);
    try (apply andb_false_iff; rewrite !N.leb_gt; lia);
    apply N.eqb_neq; lia.
Qed.

Lemma isspace_case (c : N) :
  Str.isspace (to_upper c) = Str.isspace c
  ∧ Str.isspace (to_lower c) = Str.isspace c.
Proof.
  split.
  - unfold to_upper, Str.ascii_lower.
    destruct (N.leb_spec 97 c), (N.leb_spec c 122); try reflexivity.
    cbn [andb]. rewrite !letter_not_space; [reflexivity|lia|lia].
  - unfold to_lower, Str.ascii_upper.
    destruct (N.leb_spec 65 c), (N.leb_spec c 90); try reflexivity.
    cbn [andb]. rewrite !letter_not_space; [reflexivity|lia|lia].
Qed.

Lemma title_same_lower (ud : UnicodeData) (n1 n2 : str) :
  Forall (λ c, (c < 128)%N) n1 → Forall (λ c, (c < 128)%N) n2 →
  map to_lower n1 = map to_lower n2 →
  Str.title ud n1 = Str.title ud n2.
Proof.
  intros H1 H2 Hmap.
  destruct (title_ascii ud n1 H1) as [Hl1 Ht1].
  destruct (title_ascii ud n2 H2) as [Hl2 Ht2].
  assert (∀ i, to_lower <$> (n1 !! i) = to_lower <$> (n2 !! i)) as Hi.
  { intros i. rewrite <- !list_lookup_fmap.
    change (to_lower <$> n1) with (map to_lower n1).
    change (to_lower <$> n2) with (map to_lower n2). by rewrite Hmap. }
  assert (∀ i, word_start n1 i = word_start n2 i) as Hw.
  { intros [|j]; [reflexivity|]. simpl. specialize (Hi j).
    destruct (n1 !! j) as [p1|], (n2 !! j) as [p2|]; try done.
    injection Hi as Hp. by rewrite (proj1 (same_lower p1 p2 Hp)). }
  apply list_eq. intros i. specialize (Hi i).
  destruct (n1 !! i) as [c1|] eqn:E1, (n2 !! i) as [c2|] eqn:E2; try done.
  - injection Hi as Hc. rewrite (Ht1 i c1 E1), (Ht2 i c2 E2), Hw, Hc.
    by rewrite (proj2 (same_lower c1 c2 Hc)).
  - apply lookup_ge_None in E1, E2.
    rewrite (proj2 (lookup_ge_None _ i)), (proj2 (lookup_ge_None _ i)); [done|lia|lia].
Qed.

(** X12: a greeter with [case_sensitive] false does not see the case of
    an ASCII name: two ASCII names that are equal up to the case of their
    letters get the same result from [greet], message or exception, and
    leave the same greeter. *)
Theorem X12_case_insensitive_same_result (ud : UnicodeData) (self : Greeter.t)
    (n1 n2 : str) (greeting : option value) :
  Greeter.case_sensitive self = false →
  Forall (λ c, (c < 128)%N) n1 → Forall (λ c, (c < 128)%N) n2 →
  map to_lower n1 = map to_lower n2 →
  Greeter.greet ud self (VStr n1) greeting
  = Greeter.greet ud self (VStr n2) greeting.
Proof.
  intros Hcs H1 H2 Hmap. unfold Greeter.greet. rewrite Hcs. cbn [negb].
  by rewrite (title_same_lower ud n1 n2 H1 H2 Hmap).
Qed.

Lemma X12_case_insensitive_same_result_witness :
  Greeter.greet ascii_only hi_greeter (VStr (lit "ada LOVELACE")) None
  = Greeter.greet ascii_only hi_greeter (VStr (lit "Ada Lovelace")) None.
Proof.
  apply (X12_case_insensitive_same_result ascii_only hi_greeter
           (lit "ada LOVELACE") (lit "Ada Lovelace") None).
  - reflexivity.
  - apply all_ascii. reflexivity.
  - apply all_ascii. reflexivity.
  - reflexivity.
Defined.

Lemma title_has_text (ud : UnicodeData) (n : str) :
  Forall (λ c, (c < 128)%N) n → has_text (Str.title ud n) ↔ has_text n.
Proof.
  intros H. destruct (title_ascii ud n H) as [Hlen Ht].
  assert (∀ b c, Str.isspace (if b : bool then to_upper c else to_lower c)
                 = Str.isspace c) as Hsp.
  { intros [|] c; apply isspace_case. }
  unfold has_text. split.
  - intros (c' & [i Hi]%list_elem_of_lookup & Hc').
    destruct (n !! i) as [c|] eqn:E.
    + rewrite (Ht i c E) in Hi. injection Hi as <-. rewrite Hsp in Hc'.
      exists c. split; [|exact Hc']. apply list_elem_of_lookup. eauto.
    + apply lookup_ge_None in E. apply lookup_lt_Some in Hi. lia.
  - intros (c & [i Hi]%list_elem_of_lookup & Hc).
    eexists. split.
    + apply list_elem_of_lookup. exists i. by apply Ht.
    + by rewrite Hsp.
Qed.

(** X13: a greeter with [case_sensitive] false accepts exactly the ASCII
    names [greet] accepts: title-casing keeps a valid name valid and a blank
    one blank, so the call without a greeting returns the message of the
    title-cased name and appends it for a valid name, and raises exactly
    for a blank one. *)
Theorem X13_case_insensitive_accepts (ud : UnicodeData) (self : Greeter.t)
    (n : str) :
  Greeter.case_sensitive self = false →
  Forall (λ c, (c < 128)%N) n →
  (has_text (Str.title ud n) ↔ has_text n)
  ∧ (has_text n →
     Greeter.greet ud self (VStr n) None
     = (Ok (message (Greeter.default_greeting self) (Str.title ud n)),
        Greeter.append_history self
          (message (Greeter.default_greeting self) (Str.title ud n))))
  ∧ ((∃ e, fst (Greeter.greet ud self (VStr n) None) = Raise e)
     ↔ Forall whitespace n).
Proof.
  intros Hcs Hn.
  pose proof (title_has_text ud n Hn) as Htext.
  pose proof (proj2 (greeter_greet_insensitive ud self n [] Hcs)) as Hfst.
  split; [exact Htext|]. split.
  - intros Hv. apply Htext in Hv.
    pose proof (greeter_greet_result ud self (VStr n) None) as Hr.
    rewrite Hfst, (greet_text _ _ Hv) in Hr.
    rewrite (greet_text _ _ Hv) in Hfst.
    destruct (Greeter.greet ud self (VStr n) None) as [r self'].
    simpl in *. by subst.
  - rewrite Hfst. split.
    + intros [e He]. destruct (text_or_blank n) as [Hv|Hb]; [|exact Hb].
      apply Htext in Hv. by rewrite (greet_text _ _ Hv) in He.
    + intros Hb. eexists. apply greet_blank.
      apply not_has_text. rewrite Htext. by apply not_has_text.
Qed.

Lemma X13_case_insensitive_accepts_witness :
  Greeter.greet ascii_only hi_greeter (VStr (lit " mary-ann o'NEIL ")) None
  = (Ok (lit "Hi, Mary-Ann O'Neil!"),
     Greeter.append_history hi_greeter (lit "Hi, Mary-Ann O'Neil!")).
Proof.
  assert (Forall (λ c, (c < 128)%N) (lit " mary-ann o'NEIL ")) as Hascii
    by (apply all_ascii; reflexivity).
  apply (proj1 (proj2 (X13_case_insensitive_accepts ascii_only hi_greeter
                         (lit " mary-ann o'NEIL ") eq_refl Hascii))).
  apply has_textb_spec. reflexivity.
Defined.
